(** * TextClassifier node: a shallow embedding of [TextClassifier.node.ts]

    The node classifies text with a language model and routes every input
    item to the output branches of the categories the model selected.  The
    embedding follows [execute] statement by statement.  The language
    model, the structured output parser and the host accessors are
    collaborators of the node; they are taken as parameters. *)

From Stdlib Require Import ZArith NArith Ascii String Lia Sorted.
From stdpp Require Import base tactics option list strings pretty.

Local Open Scope string_scope.
Local Open Scope list_scope.
Local Open Scope nat_scope.

(** ** JavaScript objects

    An ordinary object is kept as the list of its own properties in creation
    order.  Writing an existing key replaces the value and keeps the
    position; enumerating the keys lists array indices first, in ascending
    numeric order, and then the other string keys in creation order. *)

Module Js.

Abbreviation Object V := (list (string * V)) (only parsing).

Section object.
Context {V : Type}.

Fixpoint get (k : string) (o : Object V) : option V :=
  match o with
  | [] => None
  | (k', v) :: o' => if decide (k = k') then Some v else get k o'
  end.

Fixpoint set (k : string) (v : V) (o : Object V) : Object V :=
  match o with
  | [] => [(k, v)]
  | (k', v') :: o' =>
      if decide (k = k') then (k, v) :: o' else (k', v') :: set k v o'
  end.

(** [Object.fromEntries]: the entries are written one after the other, so
    the last entry of a repeated key wins. *)
Definition fromEntries (entries : list (string * V)) : Object V :=
  foldl (λ o e, set e.1 e.2 o) [] entries.

Definition digit_of (c : ascii) : option N :=
  let n := N_of_ascii c in
  if ((48 <=? n) && (n <=? 57))%N then Some (n - 48)%N else None.

Fixpoint digits_value (acc : N) (s : string) : option N :=
  match s with
  | EmptyString => Some acc
  | String c s' =>
      match digit_of c with
      | Some d => digits_value (10 * acc + d)%N s'
      | None => None
      end
  end.

(** A property key is an array index when it is the canonical decimal
    form of an integer below [2^32 - 1]. *)
Definition array_index (k : string) : option N :=
  match k with
  | EmptyString => None
  | String c s' =>
      match digit_of c with
      | Some 0%N => match s' with EmptyString => Some 0%N | _ => None end
      | Some d =>
          match digits_value d s' with
          | Some v => if (v <? 2 ^ 32 - 1)%N then Some v else None
          | None => None
          end
      | None => None
      end
  end.

Fixpoint insert_by_index (e : N * (string * V)) (l : list (N * (string * V)))
    : list (N * (string * V)) :=
  match l with
  | [] => [e]
  | e' :: l' =>
      if (e.1 <=? e'.1)%N then e :: e' :: l' else e' :: insert_by_index e l'
  end.

Definition index_entries (o : Object V) : list (N * (string * V)) :=
  foldr insert_by_index []
    (omap (λ e, match array_index e.1 with
                | Some n => Some (n, e)
                | None => None
                end) o).

Definition string_entries (o : Object V) : list (string * V) :=
  filter (λ e, array_index e.1 = None) o.

(** [Object.entries] and [Object.keys]: own properties in enumeration
    order. *)
Definition entries (o : Object V) : list (string * V) :=
  (index_entries o).*2 ++ string_entries o.

Definition keys (o : Object V) : list string := (entries o).*1.

End object.

(** The properties every ordinary object inherits from [Object.prototype]:
    a key the object does not own is read from there. *)
Definition prototype_keys : list string :=
  ["constructor"; "__defineGetter__"; "__defineSetter__"; "hasOwnProperty";
   "__lookupGetter__"; "__lookupSetter__"; "isPrototypeOf";
   "propertyIsEnumerable"; "toString"; "valueOf"; "__proto__";
   "toLocaleString"].

(** The text an inherited property has in a template literal: the source
    text of a native function, and [[object Object]] for the prototype
    itself. *)
Definition inherited_text (k : string) : option string :=
  if decide (k = "__proto__") then Some "[object Object]"
  else if decide (k = "constructor")
  then Some "function Object() { [native code] }"
  else if bool_decide (k ∈ prototype_keys)
  then Some ("function " +:+ k +:+ "() { [native code] }")
  else None.

(** Spread of [o] into a fresh object: [{ ...o }]. *)
Definition spread {V W : Type} (f : V → W) (o : Object V) : Object W :=
  fromEntries (prod_map id f <$> entries o).

End Js.

(** ** Data of the node *)

Inductive JsonValue :=
  | JNull
  | JBool (b : bool)
  | JNumber (n : Z)
  | JString (s : string)
  | JOther.

Record INodeExecutionData := mkItem {
  json : Js.Object JsonValue;
  pairedItem : option nat;
}.

Record Category := mkCategory {
  category : string;
  description : string;
}.

(** The [options] collection; a field that was not set is [None]. *)
Record Options := mkOptions {
  multiClass : option bool;
  fallback : option string;
  systemPromptTemplate : option string;
  enableAutoFixing : option bool;
}.

(** The value an expression parameter resolves to. *)
Inductive TextParam :=
  | Undefined
  | Null
  | Text (s : string).

Inductive Error :=
  | NodeOperationError (msg : string)
  | TypeError (msg : string)
  | ExternalError (msg : string).

Definition message (e : Error) : string :=
  match e with
  | NodeOperationError m | TypeError m | ExternalError m => m
  end.

Inductive Result (A : Type) :=
  | Ok (a : A)
  | Throw (e : Error).
Arguments Ok {A} a.
Arguments Throw {A} e.

(** The answer of the parser: one boolean per schema field. *)
Abbreviation Answer := (Js.Object bool) (only parsing).

(** A field's value used as a condition: a missing field is [undefined]. *)
Definition truthy (v : option bool) : bool :=
  match v with
  | Some b => b
  | None => false
  end.

(** [output[key]] used as a condition.  A field the answer owns is judged by
    its value; a key it does not own is read from [Object.prototype], whose
    properties are functions and objects and so count as true; any other
    key reads [undefined]. *)
Definition truthy_field (key : string) (output : Answer) : bool :=
  match Js.get key output with
  | None => bool_decide (key ∈ Js.prototype_keys)
  | own => truthy own
  end.

Abbreviation OutputBranches := (list (list INodeExecutionData)) (only parsing).

(** [z.boolean().describe(text)] *)
Record ZodBoolean := mkZodBoolean { describe : string }.

(** [z.object(shape)] *)
Record ZodObject := mkZodObject { shape : Js.Object ZodBoolean }.

Definition schema_fields (s : ZodObject) : list string := Js.keys (shape s).

Record Prompt := mkPrompt {
  systemTemplate : string;
  humanTemplate : string;
}.

(** The variables bound at each invocation of the chain. *)
Record ChainInput := mkChainInput {
  categories_var : string;
  format_instructions_var : string;
  inputText_var : string;
}.

(** A message of the formatted prompt. *)
Record Message := mkMessage {
  role : string;
  content : string;
}.

(** What the language model is asked: the messages of the formatted prompt,
    or the repair request of the fixing parser. *)
Inductive LLMInput :=
  | PromptValue (messages : list Message)
  | FixRequest (instructions completion error : string).

Inductive Parser :=
  | StructuredOutputParser (schema : ZodObject)
  | OutputFixingParser (schema : ZodObject).

Inductive Event :=
  | EvSchemaBuilt (s : ZodObject)
  | EvPromptBuilt (p : Prompt)
  | EvChainInvoked (v : ChainInput)
  | EvModelCall (i : LLMInput).

Definition is_model_call (e : Event) : bool :=
  match e with EvModelCall _ => true | _ => false end.

Definition count_events (p : Event → bool) (l : list Event) : nat :=
  length (filter (λ e, p e = true) l).

(** The execution context [this]: input items, node parameters and the
    continue-on-fail setting. *)
Record IExecuteFunctions := mkHost {
  getInputData : list INodeExecutionData;
  loadCategoriesFromInputItems : bool;
  categories_param : list Category;
  inputText_param : nat → TextParam;
  options_param : Options;
  continueOnFail : bool;
}.

Definition dq : string := String (ascii_of_nat 34) EmptyString.
Definition nl : string := String (ascii_of_nat 10) EmptyString.

Definition SYSTEM_PROMPT_TEMPLATE : string :=
  "Please classify the text provided by the user into one of the following categories: {categories}, and use the provided formatting instructions below. Don't explain, and only output the json.".

(** ** Execution *)

(** The collaborators of the node: the prompt template library, the language
    model connected to it and the structured output parser. *)
Class Collaborators (World : Type) := {
  (** The template parser: the error [fromTemplate] raises on a template
      text, if it raises one. *)
  template_error : string → option Error;
  (** [prompt.invoke]: the messages of the prompt with the variables bound;
      a template variable without a value raises. *)
  formatMessages : Prompt → ChainInput → Result (list Message);
  (** [llm.invoke]: one round trip to the language model. *)
  llm_invoke : LLMInput → World → Result string * World;
  (** [StructuredOutputParser.parse] *)
  structured_parse : ZodObject → string → Result Answer;
  (** [StructuredOutputParser.getFormatInstructions] *)
  getFormatInstructions : ZodObject → string;
}.

(** [configuredOutputs]: the display names of the node's outputs, computed
    from the parameters alone. *)
Definition configuredOutputs (parameters : IExecuteFunctions) : list string :=
  if loadCategoriesFromInputItems parameters then ["Output"]
  else
    let ret := category <$> categories_param parameters in
    if decide (fallback (options_param parameters) = Some "other")
    then ret ++ ["Other"]
    else ret.

Section execute.
Context `{Collaborators World}.

(** The state threaded through [execute]: the world of the language model,
    the log of the construction and model-call events, and the local array
    [returnData] of the per-item loop. *)
Record State := mkState {
  world : World;
  log : list Event;
  returnData : OutputBranches;
}.

Definition M (A : Type) : Type := State → Result A * State.

#[local] Instance M_ret : MRet M := λ A a st, (Ok a, st).
#[local] Instance M_bind : MBind M := λ A B f m st,
  match m st with
  | (Ok a, st') => f a st'
  | (Throw e, st') => (Throw e, st')
  end.

Definition throw {A : Type} (e : Error) : M A := λ st, (Throw e, st).

Definition lift {A : Type} (r : Result A) : M A := λ st, (r, st).

Definition try_catch {A : Type} (body : M A) (handler : Error → M A) : M A :=
  λ st,
    match body st with
    | (Ok a, st') => (Ok a, st')
    | (Throw e, st') => handler e st'
    end.

Definition emit (ev : Event) : M unit := λ st,
  (Ok (), mkState (world st) (log st ++ [ev]) (returnData st)).

Definition get_returnData : M OutputBranches := λ st, (Ok (returnData st), st).

Definition set_returnData (rd : OutputBranches) : M unit := λ st,
  (Ok (), mkState (world st) (log st) rd).

(** [returnData[idx].push(x)]; reading a property of [undefined] raises. *)
Definition push (idx : nat) (x : INodeExecutionData) : M unit := λ st,
  match returnData st !! idx with
  | Some branch =>
      (Ok (), mkState (world st) (log st)
                (<[idx := branch ++ [x]]> (returnData st)))
  | None =>
      (Throw (TypeError "Cannot read properties of undefined (reading 'push')"),
       st)
  end.

Definition call_llm (i : LLMInput) : M string := λ st,
  let '(r, w) := llm_invoke i (world st) in
  (r, mkState w (log st ++ [EvModelCall i]) (returnData st)).

(** *** Category resolution *)

Definition typeof_string (v : option JsonValue) : option string :=
  match v with
  | Some (JString s) => Some s
  | _ => None
  end.

(** [items.map((item, idx) => ...)] of the aggregate mode. *)
Fixpoint categories_from_items (idx : nat) (items : list INodeExecutionData)
    : Result (list Category) :=
  match items with
  | [] => Ok []
  | item :: rest =>
      match typeof_string (Js.get "category" (json item)),
            typeof_string (Js.get "description" (json item)) with
      | Some c, Some d =>
          match categories_from_items (S idx) rest with
          | Ok cats => Ok (mkCategory c d :: cats)
          | Throw e => Throw e
          end
      | _, _ =>
          Throw (NodeOperationError
            ("Input item " +:+ pretty idx
             +:+ " is missing a valid 'category' or 'description' field."))
      end
  end.

(** *** Schema, parser and prompt *)

Definition category_field (cat : Category) : string * ZodBoolean :=
  (category cat,
   mkZodBoolean
     ("Should be true if the input has category " +:+ dq +:+ category cat
      +:+ dq +:+ " (description: " +:+ description cat +:+ ")")).

Definition fallback_field : string * ZodBoolean :=
  ("fallback",
   mkZodBoolean "Should be true if none of the other categories apply").

Definition schemaEntries (categories : list Category) (fallback : string)
    : list (string * ZodBoolean) :=
  let entries := category_field <$> categories in
  if decide (fallback = "other") then entries ++ [fallback_field]
  else entries.

Definition build_schema (categories : list Category) (fallback : string)
    : ZodObject :=
  mkZodObject (Js.fromEntries (schemaEntries categories fallback)).

Definition make_parser (opts : Options) (schema : ZodObject) : Parser :=
  match enableAutoFixing opts with
  | Some true => OutputFixingParser schema
  | _ => StructuredOutputParser schema
  end.

Definition parser_schema (p : Parser) : ZodObject :=
  match p with
  | StructuredOutputParser s | OutputFixingParser s => s
  end.

Definition parser_getFormatInstructions (p : Parser) : string :=
  getFormatInstructions (parser_schema p).

(** [parser.parse]: the fixing parser makes one repair round trip when the
    structured parser rejects the completion, and parses the repaired
    completion once. *)
Definition parser_parse (p : Parser) (completion : string) : M Answer :=
  match p with
  | StructuredOutputParser s => lift (structured_parse s completion)
  | OutputFixingParser s =>
      match structured_parse s completion with
      | Ok a => mret a
      | Throw e =>
          fixed ← call_llm
            (FixRequest (getFormatInstructions s) completion (message e));
          lift (structured_parse s fixed)
      end
  end.

Definition multiClassPrompt (multiClass : bool) : string :=
  if multiClass
  then "Categories are not mutually exclusive, and multiple can be true"
  else "Categories are mutually exclusive, and only one can be true".

Definition fallbackPrompt (fallback : string) : option string :=
  if decide (fallback = "other")
  then Some ("If no categories apply, select the " +:+ dq +:+ "fallback"
             +:+ dq +:+ " option.")
  else if decide (fallback = "discard")
  then Some "If there is not a very fitting category, select none of the categories."
  else Js.inherited_text fallback.

(** The template literal of the system message. *)
Definition system_template (systemPromptTemplateOpt : string)
    (multiClass : bool) (fallback : string) : string :=
  systemPromptTemplateOpt +:+ nl +:+ "{format_instructions}" +:+ nl
  +:+ multiClassPrompt multiClass +:+ nl
  +:+ default "undefined" (fallbackPrompt fallback).

(** [SystemMessagePromptTemplate.fromTemplate] and
    [HumanMessagePromptTemplate.fromTemplate]: the template is parsed at
    once, and a malformed one raises. *)
Definition fromTemplate (template : string) : Result string :=
  match template_error template with
  | Some e => Throw e
  | None => Ok template
  end.

(** [ChatPromptTemplate.fromMessages([...])] *)
Definition build_prompt (systemPromptTemplateOpt : string)
    (multiClass : bool) (fallback : string) : Result Prompt :=
  match fromTemplate
          (system_template systemPromptTemplateOpt multiClass fallback) with
  | Throw e => Throw e
  | Ok system =>
      match fromTemplate "{inputText}" with
      | Throw e => Throw e
      | Ok human => Ok (mkPrompt system human)
      end
  end.

Record Chain := mkChain {
  chain_prompt : Prompt;
  chain_parser : Parser;
}.

(** [prompt.pipe(llm).pipe(parser)] invoked on the variables [v]: the
    prompt is formatted, the model is asked, the completion is parsed. *)
Definition chain_invoke (c : Chain) (v : ChainInput) : M Answer :=
  emit (EvChainInvoked v);;
  messages ← lift (formatMessages (chain_prompt c) v);
  completion ← call_llm (PromptValue messages);
  parser_parse (chain_parser c) completion.

Fixpoint join (sep : string) (l : list string) : string :=
  match l with
  | [] => EmptyString
  | [s] => s
  | s :: rest => s +:+ sep +:+ join sep rest
  end.

Definition chain_input (categories : list Category) (parser : Parser)
    (input : string) : ChainInput :=
  mkChainInput (join ", " (category <$> categories))
    (parser_getFormatInstructions parser) input.

(** The block shared by both modes: options, schema, parser, prompt. *)
Definition setup (h : IExecuteFunctions) (categories : list Category)
    : M (string * Parser * Chain) :=
  let options := options_param h in
  let multiClass := default false (multiClass options) in
  let fallback := default "discard" (fallback options) in
  let systemPromptTemplateOpt :=
    default SYSTEM_PROMPT_TEMPLATE (systemPromptTemplate options) in
  let schema := build_schema categories fallback in
  emit (EvSchemaBuilt schema);;
  let parser := make_parser options schema in
  prompt ← lift (build_prompt systemPromptTemplateOpt multiClass fallback);
  emit (EvPromptBuilt prompt);;
  mret (fallback, parser, mkChain prompt parser).

(** *** Aggregate mode *)

Definition error_item (msg : string) (paired : option nat)
    : INodeExecutionData :=
  mkItem [("error", JString msg)] paired.

Definition answer_item (output : Answer) (input : string)
    : INodeExecutionData :=
  mkItem (Js.set "input" (JString input) (Js.spread JBool output)) None.

Definition execute_aggregate (h : IExecuteFunctions) : M OutputBranches :=
  categories ← lift (categories_from_items 0 (getInputData h));
  if decide (length categories = 0) then
    throw (NodeOperationError "At least one category must be defined")
  else
    match inputText_param h 0 with
    | Undefined | Null =>
        throw (NodeOperationError "Text to classify is not defined")
    | Text input =>
        '(fallback, parser, chain) ← setup h categories;
        try_catch
          (output ← chain_invoke chain (chain_input categories parser input);
           mret [[answer_item output input]])
          (λ error, mret [[error_item (message error) None]])
    end.

(** *** Per-item mode *)

(** [categories.forEach((cat, idx) => ...)] *)
Fixpoint route_categories (output : Answer) (item : INodeExecutionData)
    (idx : nat) (categories : list Category) : M unit :=
  match categories with
  | [] => mret ()
  | cat :: rest =>
      (if truthy_field (category cat) output then push idx item
       else mret ());;
      route_categories output item (S idx) rest
  end.

Definition route_fallback (fallback : string) (output : Answer)
    (item : INodeExecutionData) : M unit :=
  if bool_decide (fallback = "other") && truthy_field "fallback" output
  then rd ← get_returnData; push (length rd - 1) item
  else mret ().

(** The body of the loop over the input items. *)
Definition process_item (h : IExecuteFunctions) (categories : list Category)
    (fallback : string) (parser : Parser) (chain : Chain)
    (itemIdx : nat) (item0 : INodeExecutionData) : M unit :=
  let item := mkItem (json item0) (Some itemIdx) in
  match inputText_param h itemIdx with
  | Undefined | Null =>
      if continueOnFail h then
        push 0 (error_item "Text to classify is not defined" (Some itemIdx))
      else
        throw (NodeOperationError
          ("Text to classify for item " +:+ pretty itemIdx
           +:+ " is not defined"))
  | Text input =>
      try_catch
        (output ← chain_invoke chain (chain_input categories parser input);
         route_categories output item 0 categories;;
         route_fallback fallback output item)
        (λ error,
           if continueOnFail h then
             push 0 (error_item (message error) (Some itemIdx))
           else throw error)
  end.

Fixpoint process_items (h : IExecuteFunctions) (categories : list Category)
    (fallback : string) (parser : Parser) (chain : Chain)
    (itemIdx : nat) (items : list INodeExecutionData) : M unit :=
  match items with
  | [] => mret ()
  | item :: rest =>
      process_item h categories fallback parser chain itemIdx item;;
      process_items h categories fallback parser chain (S itemIdx) rest
  end.

Definition new_returnData (categories : list Category) (fallback : string)
    : OutputBranches :=
  replicate
    (length categories + (if decide (fallback = "other") then 1 else 0)) [].

Definition execute_per_item (h : IExecuteFunctions) : M OutputBranches :=
  let categories := categories_param h in
  if decide (length categories = 0) then
    throw (NodeOperationError "At least one category must be defined")
  else
    '(fallback, parser, chain) ← setup h categories;
    set_returnData (new_returnData categories fallback);;
    process_items h categories fallback parser chain 0 (getInputData h);;
    get_returnData.

Definition execute (h : IExecuteFunctions) : M OutputBranches :=
  if loadCategoriesFromInputItems h then execute_aggregate h
  else execute_per_item h.

(** *** Vocabulary of the statements

    The definitions below are not part of the node; they name what the
    theorems talk about. *)

(** The category set the run works with. *)
Definition resolve_categories (h : IExecuteFunctions)
    : Result (list Category) :=
  if loadCategoriesFromInputItems h
  then categories_from_items 0 (getInputData h)
  else Ok (categories_param h).

(** One invocation of the chain seen from outside: its result, the world
    it leaves and the events it logs. *)
Definition classify (chain : Chain) (v : ChainInput) (w : World)
    : Result Answer * World * list Event :=
  let '(r, st) := chain_invoke chain v (mkState w [] []) in
  (r, world st, log st).

Inductive Outcome :=
  | MissingText
  | Failed (e : Error)
  | Classified (output : Answer).

Definition is_classified (o : Outcome) : bool :=
  match o with Classified _ => true | _ => false end.

Definition item_outcome (h : IExecuteFunctions) (categories : list Category)
    (parser : Parser) (chain : Chain) (itemIdx : nat) (w : World)
    : Outcome * World * list Event :=
  match inputText_param h itemIdx with
  | Undefined | Null => (MissingText, w, [])
  | Text input =>
      match classify chain (chain_input categories parser input) w with
      | (Ok output, w', evs) => (Classified output, w', evs)
      | (Throw e, w', evs) => (Failed e, w', evs)
      end
  end.

(** The outcomes of the items from [itemIdx] on, with the events of each,
    every item being attempted in input order. *)
Fixpoint outcomes (h : IExecuteFunctions) (categories : list Category)
    (parser : Parser) (chain : Chain) (itemIdx : nat)
    (items : list INodeExecutionData) (w : World)
    : list (Outcome * list Event) :=
  match items with
  | [] => []
  | _ :: rest =>
      let '(o, w', evs) := item_outcome h categories parser chain itemIdx w in
      (o, evs) :: outcomes h categories parser chain (S itemIdx) rest w'
  end.

(** The options, parser and chain [setup] computes. *)
Definition fallback_of (h : IExecuteFunctions) : string :=
  default "discard" (fallback (options_param h)).

Definition parser_of (h : IExecuteFunctions) (categories : list Category)
    : Parser :=
  make_parser (options_param h) (build_schema categories (fallback_of h)).

Definition system_template_of (h : IExecuteFunctions) : string :=
  system_template
    (default SYSTEM_PROMPT_TEMPLATE (systemPromptTemplate (options_param h)))
    (default false (multiClass (options_param h))) (fallback_of h).

Definition prompt_of (h : IExecuteFunctions) : Prompt :=
  mkPrompt (system_template_of h) "{inputText}".

(** The template library accepts the two templates of the prompt. *)
Definition templates_accepted (h : IExecuteFunctions) : Prop :=
  template_error (system_template_of h) = None
  ∧ template_error "{inputText}" = None.

Definition chain_of (h : IExecuteFunctions) (categories : list Category)
    : Chain :=
  mkChain (prompt_of h) (parser_of h categories).

(** The outcomes of a per-item run started in world [w]. *)
Definition run_outcomes (h : IExecuteFunctions) (w : World) : list Outcome :=
  (outcomes h (categories_param h) (parser_of h (categories_param h))
     (chain_of h (categories_param h)) 0 (getInputData h) w).*1.

(** [append_to f rd]: every branch [j] of [rd] with [f j] appended. *)
Definition append_to (f : nat → list INodeExecutionData)
    (rd : OutputBranches) : OutputBranches :=
  imap (λ j branch, branch ++ f j) rd.

(** Field [key] of the answer is true; for a key the answer does not own,
    the property inherited from [Object.prototype] stands in for it. *)
Definition field_true (output : Answer) (key : string) : bool :=
  match Js.get key output with
  | Some b => b
  | None => bool_decide (key ∈ Js.prototype_keys)
  end.

(** What a classified item adds to branch [j]. *)
Definition category_hit (categories : list Category) (output : Answer)
    (j : nat) : bool :=
  match categories !! j with
  | Some cat => field_true output (category cat)
  | None => false
  end.

Definition fallback_hit (categories : list Category) (fallback : string)
    (output : Answer) (j : nat) : bool :=
  bool_decide (fallback = "other") && field_true output "fallback"
  && bool_decide (j = length categories).

Definition deliveries (categories : list Category) (fallback : string)
    (output : Answer) (item : INodeExecutionData) (j : nat)
    : list INodeExecutionData :=
  (if category_hit categories output j then [item] else [])
  ++ (if fallback_hit categories fallback output j then [item] else []).

Definition failure_message (o : Outcome) : option string :=
  match o with
  | MissingText => Some "Text to classify is not defined"
  | Failed e => Some (message e)
  | Classified _ => None
  end.

(** What item [itemIdx] adds to branch [j] in failure-tolerant mode. *)
Definition contribution (categories : list Category) (fallback : string)
    (itemIdx : nat) (item : INodeExecutionData) (o : Outcome) (j : nat)
    : list INodeExecutionData :=
  match o with
  | Classified output =>
      deliveries categories fallback output
        (mkItem (json item) (Some itemIdx)) j
  | _ =>
      if decide (j = 0)
      then [mkItem
              [("error", JString (default EmptyString (failure_message o)))]
              (Some itemIdx)]
      else []
  end.

Fixpoint collect (categories : list Category) (fallback : string) (j : nat)
    (itemIdx : nat) (items : list INodeExecutionData) (os : list Outcome)
    : list INodeExecutionData :=
  match items, os with
  | item :: items', o :: os' =>
      contribution categories fallback itemIdx item o j
      ++ collect categories fallback j (S itemIdx) items' os'
  | _, _ => []
  end.

(** The error an intolerant run aborts with at a failing item. *)
Definition abort_error (itemIdx : nat) (o : Outcome) : option Error :=
  match o with
  | MissingText =>
      Some (NodeOperationError
        ("Text to classify for item " +:+ pretty itemIdx
         +:+ " is not defined"))
  | Failed e => Some e
  | Classified _ => None
  end.

Definition well_sized (categories : list Category) (fallback : string)
    (rd : OutputBranches) : Prop :=
  length rd
  = length categories + (if decide (fallback = "other") then 1 else 0).

(** [n] is the first item of the run that is not classified. *)
Definition first_failure (os : list Outcome) (n : nat) : Prop :=
  (∃ o, os !! n = Some o ∧ is_classified o = false)
  ∧ ∀ m o', m < n → os !! m = Some o' → is_classified o' = true.

(** The error of every aborted per-item run tells, through [index_of],
    which item failed. *)
Definition abort_identifies_item (index_of : Error → nat) : Prop :=
  ∀ (h : IExecuteFunctions) (st : State) (n : nat),
    loadCategoriesFromInputItems h = false →
    continueOnFail h = false →
    categories_param h ≠ [] →
    templates_accepted h →
    first_failure (run_outcomes h (world st)) n →
    ∃ e st', execute h st = (Throw e, st') ∧ index_of e = n.

(** An input item the aggregate mode can take a category from. *)
Definition valid_category_item (item : INodeExecutionData) : Prop :=
  is_Some (typeof_string (Js.get "category" (json item)))
  ∧ is_Some (typeof_string (Js.get "description" (json item))).

Definition invalid_item_error (idx : nat) : Error :=
  NodeOperationError
    ("Input item " +:+ pretty idx
     +:+ " is missing a valid 'category' or 'description' field.").

(** The events of one invocation of a chain without the fixing parser: the
    invocation itself, and a model call when the prompt formats. *)
Definition chain_trace (chain : Chain) (v : ChainInput) : list Event :=
  EvChainInvoked v
  :: match formatMessages (chain_prompt chain) v with
     | Ok messages => [EvModelCall (PromptValue messages)]
     | Throw _ => []
     end.

(** The events of the loop over the items from [itemIdx] on, without the
    fixing parser: those of one invocation for every item whose text is
    defined, none for the others. *)
Fixpoint run_trace (h : IExecuteFunctions) (categories : list Category)
    (parser : Parser) (chain : Chain) (itemIdx : nat)
    (items : list INodeExecutionData) : list Event :=
  match items with
  | [] => []
  | _ :: rest =>
      match inputText_param h itemIdx with
      | Text input => chain_trace chain (chain_input categories parser input)
      | _ => []
      end
      ++ run_trace h categories parser chain (S itemIdx) rest
  end.

(** The events of the block shared by both modes. *)
Definition setup_events (h : IExecuteFunctions) (categories : list Category)
    : list Event :=
  [EvSchemaBuilt (build_schema categories (fallback_of h));
   EvPromptBuilt (prompt_of h)].

(** The first input item that is not a valid category item is item [n]. *)
Definition first_invalid (items : list INodeExecutionData) (n : nat) : Prop :=
  (∃ item, items !! n = Some item ∧ ¬ valid_category_item item)
  ∧ ∀ m item', m < n → items !! m = Some item' → valid_category_item item'.

(** [h] with another continue-on-fail setting. *)
Definition with_continueOnFail (b : bool) (h : IExecuteFunctions)
    : IExecuteFunctions :=
  mkHost (getInputData h) (loadCategoriesFromInputItems h)
    (categories_param h) (inputText_param h) (options_param h) b.

End execute.

(** ** A scripted model

    A stand-in for the collaborators, used to run the node on concrete
    batches: templates are format strings with variables in braces; the
    model echoes the text it is given (and is out of service for the text
    [outage]); the parser sets a field to true when its name occurs in the
    completion, and rejects a completion that contains [?]; it builds the
    answer by assignment, which creates no field named [__proto__].  The
    world counts the round trips. *)

Module Script.

Definition occurs (k text : string) : bool :=
  match String.index 0 k text with
  | Some _ => true
  | None => false
  end.

(** Templates in the style of format strings: [{name}] is a variable, and
    doubled braces stand for themselves. *)
Inductive Node :=
  | Literal (c : ascii)
  | Hole (name : string).

Inductive Scan :=
  | InText
  | AfterOpen
  | InHole (name : string)
  | AfterClose.

Definition add_node (n : Node) (r : Result (list Node)) : Result (list Node) :=
  match r with
  | Ok nodes => Ok (n :: nodes)
  | Throw e => Throw e
  end.

Fixpoint scan (state : Scan) (s : string) : Result (list Node) :=
  match s with
  | EmptyString =>
      match state with
      | InText => Ok []
      | AfterClose => Throw (ExternalError "Single '}' in template.")
      | _ => Throw (ExternalError "Unclosed '{' in template.")
      end
  | String c rest =>
      match state with
      | InText =>
          if decide (c = "{"%char) then scan AfterOpen rest
          else if decide (c = "}"%char) then scan AfterClose rest
          else add_node (Literal c) (scan InText rest)
      | AfterOpen =>
          if decide (c = "{"%char)
          then add_node (Literal "{"%char) (scan InText rest)
          else if decide (c = "}"%char)
          then add_node (Hole EmptyString) (scan InText rest)
          else scan (InHole (String c EmptyString)) rest
      | InHole name =>
          if decide (c = "}"%char) then add_node (Hole name) (scan InText rest)
          else scan (InHole (name +:+ String c EmptyString)) rest
      | AfterClose =>
          if decide (c = "}"%char)
          then add_node (Literal "}"%char) (scan InText rest)
          else Throw (ExternalError "Single '}' in template.")
      end
  end.

Definition parse_template (template : string) : option Error :=
  match scan InText template with
  | Ok _ => None
  | Throw e => Some e
  end.

Definition bound (v : ChainInput) (name : string) : option string :=
  if decide (name = "categories") then Some (categories_var v)
  else if decide (name = "format_instructions")
  then Some (format_instructions_var v)
  else if decide (name = "inputText") then Some (inputText_var v)
  else None.

Fixpoint render (v : ChainInput) (nodes : list Node) : Result string :=
  match nodes with
  | [] => Ok EmptyString
  | Literal c :: rest =>
      match render v rest with
      | Ok text => Ok (String c text)
      | Throw e => Throw e
      end
  | Hole name :: rest =>
      match bound v name with
      | Some value =>
          match render v rest with
          | Ok text => Ok (value +:+ text)
          | Throw e => Throw e
          end
      | None =>
          Throw (ExternalError ("Missing value for input variable " +:+ name))
      end
  end.

Definition format_template (v : ChainInput) (template : string)
    : Result string :=
  match scan InText template with
  | Ok nodes => render v nodes
  | Throw e => Throw e
  end.

Definition format (p : Prompt) (v : ChainInput) : Result (list Message) :=
  match format_template v (systemTemplate p) with
  | Throw e => Throw e
  | Ok system =>
      match format_template v (humanTemplate p) with
      | Throw e => Throw e
      | Ok human => Ok [mkMessage "system" system; mkMessage "human" human]
      end
  end.

(** The model echoes the last message it is given. *)
Definition model (i : LLMInput) (w : nat) : Result string * nat :=
  match i with
  | PromptValue messages =>
      let text := default EmptyString (content <$> last messages) in
      if decide (text = "outage")
      then (Throw (ExternalError "model unavailable"), S w)
      else (Ok text, S w)
  | FixRequest _ completion _ => (Ok completion, S w)
  end.

Definition parse (schema : ZodObject) (completion : string)
    : Result (list (string * bool)) :=
  if occurs "?" completion
  then Throw (ExternalError "Failed to parse")
  else Ok ((λ k, (k, occurs k completion))
           <$> filter (λ k, k ≠ "__proto__") (schema_fields schema)).

Definition collaborators : Collaborators nat :=
  {| template_error := parse_template;
     formatMessages := format;
     llm_invoke := model;
     structured_parse := parse;
     getFormatInstructions := λ _, "Answer with a JSON object." |}.

Definition start : State (World := nat) := mkState 0 [] [].

Definition bug_feature : list Category :=
  [mkCategory "Bug" "defect report";
   mkCategory "Feature" "enhancement request"].

Definition options (fb : string) : Options :=
  mkOptions (Some false) (Some fb) None (Some false).

(** A per-item run over the given texts. *)
Definition batch (tolerant : bool) (categories : list Category)
    (fb : string) (texts : list TextParam) : IExecuteFunctions :=
  mkHost ((λ _, mkItem [("source", JString "inbox")] None) <$> texts)
    false categories (λ i, default Undefined (texts !! i))
    (options fb) tolerant.

(** An aggregate run: every category comes from an input item. *)
Definition aggregate (categories : list Category) (fb : string)
    (text : TextParam) : IExecuteFunctions :=
  mkHost
    ((λ c, mkItem [("category", JString (category c));
                   ("description", JString (description c))] None)
       <$> categories)
    true [] (λ _, text) (options fb) false.

(** Batches and states the examples run on. *)
Definition inbox_item : INodeExecutionData :=
  mkItem [("source", JString "inbox")] None.

Definition mixed_batch : IExecuteFunctions :=
  batch true bug_feature "other"
    [Text "Bug"; Undefined; Text "outage"; Text "Bug Feature"].

Definition clean_batch : IExecuteFunctions :=
  batch false bug_feature "other"
    [Text "Bug"; Text "Feature"; Text "Bug Feature"].

Definition multi_batch : IExecuteFunctions :=
  batch false bug_feature "other" [Text "Bug Feature"].

Definition failing_first : IExecuteFunctions :=
  batch false bug_feature "other" [Text "outage"; Text "Bug"].

Definition failing_second : IExecuteFunctions :=
  batch false bug_feature "other" [Text "Bug"; Text "outage"].

Definition blank_batch : IExecuteFunctions :=
  batch true bug_feature "other" [Text EmptyString].



Definition three_branches : State (World := nat) :=
  mkState 0 [] [[]; []; []].

Definition boom : Error := ExternalError "model unavailable".

(** A per-item run with a system prompt template of its own. *)
Definition templated (template : string) (tolerant : bool)
    (texts : list TextParam) : IExecuteFunctions :=
  mkHost ((λ _, mkItem [("source", JString "inbox")] None) <$> texts)
    false bug_feature (λ i, default Undefined (texts !! i))
    (mkOptions (Some false) (Some "other") (Some template) (Some false))
    tolerant.

(** An aggregate run with a system prompt template of its own. *)
Definition templated_aggregate (template : string) (text : TextParam)
    : IExecuteFunctions :=
  mkHost
    ((λ c, mkItem [("category", JString (category c));
                   ("description", JString (description c))] None)
       <$> bug_feature)
    true [] (λ _, text)
    (mkOptions (Some false) (Some "other") (Some template) (Some false))
    false.

End Script.

(** * Properties *)

(** ** JavaScript objects *)

Section object_facts.
Context {V : Type}.
Implicit Types (o : Js.Object V) (k : string) (v : V).


Lemma Js_set_absent k v o : k ∉ o.*1 → Js.set k v o = o ++ [(k, v)].
Proof.
  induction o as [|[k' v'] o IH]; simpl; first done.
  intros H. apply not_elem_of_cons in H as [Hne Hni].
  case_decide; first done. by rewrite IH.
Qed.

Lemma Js_set_keys_elem k v o k' :
  k' ∈ (Js.set k v o).*1 ↔ k' = k ∨ k' ∈ o.*1.
Proof.
  induction o as [|[k0 v0] o IH]; simpl.
  - rewrite list_elem_of_singleton. split; [auto|].
    intros [?|H]; [done|]. by apply elem_of_nil in H.
  - case_decide as Hk; simpl.
    + subst. rewrite !elem_of_cons. tauto.
    + rewrite !elem_of_cons, IH. tauto.
Qed.


Lemma Js_get_set k v o : Js.get k (Js.set k v o) = Some v.
Proof.
  induction o as [|[k0 v0] o IH]; simpl.
  - by rewrite decide_True.
  - case_decide as Hk; simpl.
    + by rewrite decide_True.
    + by rewrite decide_False.
Qed.

Lemma Js_fold_set_fresh (acc es : Js.Object V) :
  NoDup (acc ++ es).*1 →
  foldl (λ o e, Js.set e.1 e.2 o) acc es = acc ++ es.
Proof.
  revert acc. induction es as [|[k v] es IH]; intros acc Hnd; simpl.
  - by rewrite app_nil_r.
  - rewrite Js_set_absent.
    + rewrite IH; rewrite <- app_assoc; done.
    + rewrite fmap_app in Hnd. apply NoDup_app in Hnd as (_ & Hd & _).
      intros Hin. apply (Hd k Hin). simpl. apply elem_of_cons. by left.
Qed.

Lemma Js_fromEntries_fresh (es : list (string * V)) :
  NoDup es.*1 → Js.fromEntries es = es.
Proof. intros H. unfold Js.fromEntries. by rewrite Js_fold_set_fresh. Qed.



Lemma Js_fold_set_keys_elem (acc es : Js.Object V) k :
  k ∈ (foldl (λ o e, Js.set e.1 e.2 o) acc es).*1 ↔ k ∈ acc.*1 ∨ k ∈ es.*1.
Proof.
  revert acc. induction es as [|[k0 v0] es IH]; intros acc; simpl.
  - split; [auto|]. intros [?|H]; [done|]. by apply elem_of_nil in H.
  - rewrite IH, Js_set_keys_elem, elem_of_cons. tauto.
Qed.


Lemma Js_fromEntries_keys_elem (es : list (string * V)) k :
  k ∈ (Js.fromEntries es).*1 ↔ k ∈ es.*1.
Proof.
  unfold Js.fromEntries. rewrite Js_fold_set_keys_elem. simpl.
  split; [|auto]. intros [H|?]; [|done]. by apply elem_of_nil in H.
Qed.

Lemma Js_insert_by_index_Permutation e (l : list (N * (string * V))) :
  Js.insert_by_index e l ≡ₚ e :: l.
Proof.
  induction l as [|e' l IH]; simpl; [done|].
  destruct (e.1 <=? e'.1)%N; [done|].
  rewrite IH. apply Permutation_swap.
Qed.

Lemma Js_index_entries_cons k v o :
  Js.index_entries ((k, v) :: o)
  = match Js.array_index k with
    | Some n => Js.insert_by_index (n, (k, v)) (Js.index_entries o)
    | None => Js.index_entries o
    end.
Proof. unfold Js.index_entries. simpl. by destruct (Js.array_index k). Qed.

Lemma Js_string_entries_cons k v o :
  Js.string_entries ((k, v) :: o)
  = match Js.array_index k with
    | Some _ => Js.string_entries o
    | None => (k, v) :: Js.string_entries o
    end.
Proof.
  unfold Js.string_entries. rewrite filter_cons. simpl.
  destruct (Js.array_index k); by case_decide.
Qed.

Lemma Js_entries_Permutation o : Js.entries o ≡ₚ o.
Proof.
  unfold Js.entries.
  induction o as [|[k v] o IH]; [done|].
  rewrite Js_index_entries_cons, Js_string_entries_cons.
  destruct (Js.array_index k) as [n|].
  - rewrite Js_insert_by_index_Permutation. simpl. by rewrite IH.
  - rewrite <- Permutation_middle. by rewrite IH.
Qed.

Lemma Js_keys_Permutation o : Js.keys o ≡ₚ o.*1.
Proof. unfold Js.keys. by rewrite Js_entries_Permutation. Qed.

Lemma Js_keys_length o : length (Js.keys o) = length o.
Proof. by rewrite Js_keys_Permutation, length_fmap. Qed.

Lemma Js_index_entries_plain o :
  Forall (λ k, Js.array_index k = None) o.*1 → Js.index_entries o = [].
Proof.
  induction o as [|[k v] o IH]; [done|].
  rewrite fmap_cons, Forall_cons. simpl. intros [Hk Ho].
  rewrite Js_index_entries_cons, Hk. by apply IH.
Qed.

Lemma Js_string_entries_plain o :
  Forall (λ k, Js.array_index k = None) o.*1 → Js.string_entries o = o.
Proof.
  induction o as [|[k v] o IH]; [done|].
  rewrite fmap_cons, Forall_cons. simpl. intros [Hk Ho].
  rewrite Js_string_entries_cons, Hk. by rewrite IH.
Qed.

Lemma Js_entries_plain o :
  Forall (λ k, Js.array_index k = None) o.*1 → Js.entries o = o.
Proof.
  intros H. unfold Js.entries.
  by rewrite Js_index_entries_plain, Js_string_entries_plain.
Qed.

Lemma Js_keys_plain o :
  Forall (λ k, Js.array_index k = None) o.*1 → Js.keys o = o.*1.
Proof. intros H. unfold Js.keys. by rewrite Js_entries_plain. Qed.

Lemma Js_get_set_other k k' v o :
  k ≠ k' → Js.get k (Js.set k' v o) = Js.get k o.
Proof.
  intros Hne. induction o as [|[k0 v0] o IH]; simpl.
  - by rewrite decide_False.
  - destruct (decide (k' = k0)) as [->|Hk0]; simpl.
    + by rewrite !decide_False.
    + by rewrite IH.
Qed.

Lemma Js_get_None k o : Js.get k o = None ↔ k ∉ o.*1.
Proof.
  induction o as [|[k0 v0] o IH]; simpl.
  - split; [intros _; apply not_elem_of_nil|done].
  - rewrite not_elem_of_cons. case_decide as Hk.
    + split; [done|]. by intros [? _].
    + rewrite IH. tauto.
Qed.

Lemma Js_get_Some k v o : NoDup o.*1 → Js.get k o = Some v ↔ (k, v) ∈ o.
Proof.
  induction o as [|[k0 v0] o IH]; simpl.
  - intros _. rewrite elem_of_nil. by split.
  - rewrite NoDup_cons, elem_of_cons. intros [Hni Hnd].
    case_decide as Hk.
    + subst. split.
      * intros [= ->]. by left.
      * intros [[= ->]|Hin]; [done|].
        exfalso. apply Hni. apply list_elem_of_fmap. by exists (k0, v).
    + rewrite (IH Hnd). split; [by right|].
      intros [[= -> _]|?]; done.
Qed.

Lemma Js_get_Permutation k o o' :
  NoDup o.*1 → o ≡ₚ o' → Js.get k o = Js.get k o'.
Proof.
  intros Hnd Hperm.
  assert (Hnd' : NoDup o'.*1) by (by rewrite <- Hperm).
  destruct (Js.get k o) as [v|] eqn:Hget.
  - symmetry. apply (Js_get_Some _ _ _ Hnd'). rewrite <- Hperm.
    by apply (Js_get_Some _ _ _ Hnd).
  - symmetry. apply Js_get_None. rewrite <- Hperm. by apply Js_get_None.
Qed.

End object_facts.

Lemma Js_get_fmap {V W : Type} (f : V → W) (k : string)
    (o : list (string * V)) :
  Js.get k (prod_map id f <$> o) = f <$> Js.get k o.
Proof.
  induction o as [|[k0 v0] o IH]; simpl; [done|]. by case_decide.
Qed.

(** The spread of an object with distinct keys reads like the object. *)
Lemma Js_get_spread {V W : Type} (f : V → W) (k : string)
    (o : list (string * V)) :
  NoDup o.*1 → Js.get k (Js.spread f o) = f <$> Js.get k o.
Proof.
  intros Hnd. unfold Js.spread.
  assert (Hkeys : (prod_map id f <$> Js.entries o).*1 = (Js.entries o).*1).
  { rewrite <- !list_fmap_compose. apply list_fmap_ext. by intros i [??] _. }
  assert (Hnd' : NoDup (Js.entries o).*1)
    by (by rewrite Js_entries_Permutation).
  rewrite Js_fromEntries_fresh by (by rewrite Hkeys).
  rewrite Js_get_fmap. f_equal.
  apply Js_get_Permutation; [done|apply Js_entries_Permutation].
Qed.

(** ** Appending to output branches *)

Section append_facts.
Implicit Types (rd : list (list INodeExecutionData)).
Implicit Types (f g : nat → list INodeExecutionData).

Lemma append_to_length f rd : length (append_to f rd) = length rd.
Proof. apply length_imap. Qed.

Lemma append_to_lookup f rd j :
  append_to f rd !! j = (λ branch, branch ++ f j) <$> rd !! j.
Proof. apply list_lookup_imap. Qed.

Lemma append_to_ext f g rd :
  (∀ j, j < length rd → f j = g j) → append_to f rd = append_to g rd.
Proof.
  intros Hfg. apply list_eq. intros j. rewrite !append_to_lookup.
  destruct (rd !! j) as [b|] eqn:Hj; [|done]. simpl.
  rewrite Hfg; [done|]. by eapply lookup_lt_Some.
Qed.

Lemma append_to_nothing f rd :
  (∀ j, j < length rd → f j = []) → append_to f rd = rd.
Proof.
  intros Hf. apply list_eq. intros j. rewrite append_to_lookup.
  destruct (rd !! j) as [b|] eqn:Hj; [|done]. simpl.
  rewrite Hf; [by rewrite app_nil_r|]. by eapply lookup_lt_Some.
Qed.

Lemma append_to_compose f g rd :
  append_to g (append_to f rd) = append_to (λ j, f j ++ g j) rd.
Proof.
  apply list_eq. intros j. rewrite !append_to_lookup.
  destruct (rd !! j) as [b|]; [|done]. simpl. by rewrite app_assoc.
Qed.

Lemma insert_append_to rd idx branch x :
  rd !! idx = Some branch →
  <[idx := branch ++ [x]]> rd
  = append_to (λ j, if decide (j = idx) then [x] else []) rd.
Proof.
  intros Hidx. apply list_eq. intros j.
  rewrite append_to_lookup, list_lookup_insert.
  pose proof (lookup_lt_Some _ _ _ Hidx) as Hlt.
  case_decide as Hj.
  - destruct Hj as [-> _]. rewrite Hidx. simpl. by rewrite decide_True.
  - destruct (rd !! j) as [b|] eqn:Hb; [|done]. simpl.
    rewrite decide_False; [by rewrite app_nil_r|].
    intros ->. apply Hj. split; [done|]. by eapply lookup_lt_Some.
Qed.

End append_facts.

(** ** The chain and the loop body *)

Section execution_facts.
Context `{Collaborators World}.
Implicit Types (st : State (World := World)) (w : World).
Implicit Types (h : IExecuteFunctions) (cats : list Category).
Implicit Types (fb : string) (parser : Parser) (chain : Chain).
Implicit Types (item : INodeExecutionData) (output : list (string * bool)).

(** An invocation of the chain changes the world, extends the log and
    leaves [returnData] alone. *)
Lemma chain_invoke_classify chain v st :
  chain_invoke chain v st
  = let '(r, w', evs) := classify chain v (world st) in
    (r, mkState w' (log st ++ evs) (returnData st)).
Proof.
  unfold classify, chain_invoke, mbind, M_bind, emit, lift, call_llm. simpl.
  destruct (formatMessages (chain_prompt chain) v) as [messages|e]; simpl;
    [|done].
  destruct (llm_invoke _ (world st)) as [[completion|e] w1]; simpl;
    [|by rewrite <- app_assoc].
  destruct (chain_parser chain) as [s|s]; simpl.
  - unfold lift. by rewrite <- app_assoc.
  - destruct (structured_parse s completion) as [a|e]; simpl.
    + unfold mret, M_ret. by rewrite <- app_assoc.
    + unfold mbind, M_bind, call_llm, lift. simpl.
      destruct (llm_invoke _ w1) as [[fixed|e'] w2]; simpl;
        by rewrite <- !app_assoc.
Qed.

(** The loop reads a field as the statements do. *)
Lemma truthy_field_field_true key output :
  truthy_field key output = field_true output key.
Proof. unfold truthy_field, field_true. by destruct (Js.get key output). Qed.

Lemma push_in_range idx x st branch :
  returnData st !! idx = Some branch →
  push idx x st
  = (Ok (), mkState (world st) (log st)
              (append_to (λ j, if decide (j = idx) then [x] else [])
                 (returnData st))).
Proof.
  intros Hidx. unfold push. rewrite Hidx.
  by rewrite (insert_append_to _ _ _ _ Hidx).
Qed.

Lemma route_categories_spec output item cats : ∀ idx st,
  idx + length cats ≤ length (returnData st) →
  route_categories output item idx cats st
  = (Ok (), mkState (world st) (log st)
              (append_to
                 (λ j, if decide (idx ≤ j)
                       then if category_hit cats output (j - idx)
                            then [item] else []
                       else [])
                 (returnData st))).
Proof.
  induction cats as [|cat rest IH]; intros idx st Hlen; simpl.
  - unfold mret, M_ret. destruct st as [w l rd]. simpl. f_equal. f_equal.
    symmetry. apply append_to_nothing. intros j _.
    by case_decide.
  - simpl in Hlen. unfold mbind, M_bind.
    assert (Hstep : ∀ f, append_to
        (λ j, if decide (S idx ≤ j)
              then if category_hit rest output (j - S idx)
                   then [item] else []
              else [])
        (append_to f (returnData st))
      = append_to
        (λ j, f j ++
              (if decide (S idx ≤ j)
               then if category_hit rest output (j - S idx)
                    then [item] else []
               else []))
        (returnData st)) by (intros f; apply append_to_compose).
    destruct (truthy_field (category cat) output) eqn:Hhit;
      rewrite truthy_field_field_true in Hhit.
    + destruct (lookup_lt_is_Some_2 (returnData st) idx) as [b Hb]; [lia|].
      rewrite (push_in_range _ _ _ _ Hb).
      rewrite IH by (simpl; rewrite append_to_length; lia). simpl.
      f_equal. f_equal. rewrite Hstep. apply append_to_ext. intros j _.
      unfold category_hit.
      destruct (decide (j = idx)) as [->|Hne].
      * rewrite decide_False by lia. rewrite decide_True by lia.
        replace (idx - idx) with 0 by lia. simpl. by rewrite Hhit.
      * simpl. destruct (decide (S idx ≤ j)).
        -- rewrite decide_True by lia.
           replace (j - idx) with (S (j - S idx)) by lia. done.
        -- rewrite decide_False by lia. done.
    + unfold mret, M_ret. rewrite IH by lia. simpl.
      f_equal. f_equal. apply append_to_ext. intros j _.
      unfold category_hit.
      destruct (decide (S idx ≤ j)).
      * rewrite decide_True by lia.
        replace (j - idx) with (S (j - S idx)) by lia. done.
      * destruct (decide (idx ≤ j)); [|done].
        replace (j - idx) with 0 by lia. simpl. by rewrite Hhit.
Qed.

Lemma route_fallback_spec cats fb output item st :
  well_sized cats fb (returnData st) →
  route_fallback fb output item st
  = (Ok (), mkState (world st) (log st)
              (append_to
                 (λ j, if fallback_hit cats fb output j then [item] else [])
                 (returnData st))).
Proof.
  unfold well_sized, route_fallback, fallback_hit. intros Hlen.
  rewrite truthy_field_field_true.
  destruct (bool_decide (fb = "other")) eqn:Hfb; simpl.
  - apply bool_decide_eq_true in Hfb. rewrite decide_True in Hlen by done.
    destruct (field_true output "fallback"); simpl.
    + unfold mbind, M_bind, get_returnData.
      destruct (lookup_lt_is_Some_2 (returnData st)
                  (length (returnData st) - 1)) as [b Hb]; [lia|].
      rewrite (push_in_range _ _ _ _ Hb). f_equal. f_equal.
      apply append_to_ext. intros j _.
      replace (length (returnData st) - 1) with (length cats) by lia.
      destruct (decide (j = length cats)).
      * by rewrite bool_decide_eq_true_2.
      * by rewrite bool_decide_eq_false_2.
    + unfold mret, M_ret. destruct st as [w l rd]. simpl. f_equal. f_equal.
      symmetry. by apply append_to_nothing.
  - unfold mret, M_ret. destruct st as [w l rd]. simpl. f_equal. f_equal.
    symmetry. by apply append_to_nothing.
Qed.

Lemma first_branch cats fb (rd : list (list INodeExecutionData)) :
  well_sized cats fb rd → cats ≠ [] → ∃ branch, rd !! 0 = Some branch.
Proof.
  unfold well_sized. intros Hlen Hne.
  apply lookup_lt_is_Some_2. destruct cats; [done|]. simpl in Hlen. lia.
Qed.

Lemma process_item_ok h cats fb parser chain i item st o w' evs :
  well_sized cats fb (returnData st) →
  cats ≠ [] →
  item_outcome h cats parser chain i (world st) = (o, w', evs) →
  continueOnFail h = true ∨ is_classified o = true →
  process_item h cats fb parser chain i item st
  = (Ok (), mkState w' (log st ++ evs)
              (append_to (contribution cats fb i item o) (returnData st))).
Proof.
  intros Hlen Hne Ho Hmode.
  destruct (first_branch _ _ _ Hlen Hne) as [b0 Hb0].
  unfold process_item, item_outcome in *.
  destruct (inputText_param h i) as [| |input].
  1,2: injection Ho as <- <- <-;
    destruct Hmode as [->|?]; [|done];
    rewrite (push_in_range _ _ _ _ Hb0), app_nil_r; done.
  unfold try_catch, mbind, M_bind. rewrite chain_invoke_classify.
  destruct (classify chain _ (world st)) as [[[output|e] w1] evs1];
    injection Ho as <- <- <-.
  - rewrite route_categories_spec
      by (unfold well_sized in Hlen; simpl; lia).
    simpl.
    rewrite (route_fallback_spec cats)
      by (unfold well_sized in *; simpl; by rewrite append_to_length).
    simpl. f_equal. f_equal. rewrite append_to_compose.
    apply append_to_ext. intros j _. simpl. unfold deliveries.
    by rewrite Nat.sub_0_r.
  - destruct Hmode as [->|?]; [|done].
    by rewrite (push_in_range _ _ _ b0).
Qed.

Lemma process_item_abort h cats fb parser chain i item st o w' evs err :
  item_outcome h cats parser chain i (world st) = (o, w', evs) →
  continueOnFail h = false →
  abort_error i o = Some err →
  process_item h cats fb parser chain i item st
  = (Throw err, mkState w' (log st ++ evs) (returnData st)).
Proof.
  intros Ho Hmode Herr. unfold process_item, item_outcome in *.
  destruct (inputText_param h i) as [| |input].
  1,2: injection Ho as <- <- <-; rewrite Hmode; injection Herr as <-;
    unfold throw; rewrite app_nil_r; by destruct st.
  unfold try_catch, mbind, M_bind. rewrite chain_invoke_classify.
  destruct (classify chain _ (world st)) as [[[output|e] w1] evs1];
    injection Ho as <- <- <-; [done|].
  rewrite Hmode. by injection Herr as <-.
Qed.

(** The loop, as long as no item aborts it. *)
Lemma process_items_ok h cats fb parser chain items : ∀ i st,
  well_sized cats fb (returnData st) →
  cats ≠ [] →
  continueOnFail h = true
  ∨ Forall (λ t, is_classified t.1 = true)
      (outcomes h cats parser chain i items (world st)) →
  ∃ w',
    process_items h cats fb parser chain i items st
    = (Ok (),
       mkState w'
         (log st
          ++ concat (outcomes h cats parser chain i items (world st)).*2)
         (append_to
            (λ j, collect cats fb j i items
                    (outcomes h cats parser chain i items (world st)).*1)
            (returnData st))).
Proof.
  induction items as [|item rest IH]; intros i st Hlen Hne Hmode; simpl.
  - exists (world st). unfold mret, M_ret. rewrite app_nil_r.
    rewrite append_to_nothing by done. by destruct st.
  - simpl in Hmode.
    destruct (item_outcome h cats parser chain i (world st))
      as [[o w1] evs] eqn:Ho.
    unfold mbind, M_bind.
    rewrite (process_item_ok _ _ _ _ _ _ _ _ _ _ _ Hlen Hne Ho).
    2: { destruct Hmode as [?|Hall]; [by left|right].
         by apply Forall_cons in Hall as [? _]. }
    set (st1 := mkState w1 _ _).
    destruct (IH (S i) st1) as [w' ->].
    + unfold well_sized in *. simpl. by rewrite append_to_length.
    + done.
    + destruct Hmode as [?|Hall]; [by left|right].
      by apply Forall_cons in Hall as [_ ?].
    + exists w'. simpl. f_equal. f_equal.
      * by rewrite <- app_assoc.
      * by rewrite append_to_compose.
Qed.

(** The loop stops at the first item that fails when failures are not
    tolerated. *)
Lemma process_items_abort h cats fb parser chain items : ∀ i st n o err,
  well_sized cats fb (returnData st) →
  cats ≠ [] →
  continueOnFail h = false →
  (outcomes h cats parser chain i items (world st)).*1 !! n = Some o →
  (∀ m o', m < n →
     (outcomes h cats parser chain i items (world st)).*1 !! m = Some o' →
     is_classified o' = true) →
  abort_error (i + n) o = Some err →
  ∃ st',
    process_items h cats fb parser chain i items st = (Throw err, st').
Proof.
  induction items as [|item rest IH]; intros i st n o err Hlen Hne Hmode;
    simpl; [done|].
  destruct (item_outcome h cats parser chain i (world st))
    as [[o1 w1] evs] eqn:Ho.
  intros Hn Hbefore Herr. unfold mbind, M_bind.
  destruct n as [|n]; simpl in Hn.
  - injection Hn as ->. rewrite Nat.add_0_r in Herr.
    rewrite (process_item_abort _ _ _ _ _ _ _ _ _ _ _ _ Ho Hmode Herr).
    eauto.
  - rewrite (process_item_ok _ _ _ _ _ _ _ _ _ _ _ Hlen Hne Ho).
    2: { right. apply (Hbefore 0); [lia|done]. }
    eapply IH; [| done | done | exact Hn | | ].
    + unfold well_sized in *. simpl. by rewrite append_to_length.
    + intros m o' Hm Hm'. apply (Hbefore (S m)); [lia|done].
    + by rewrite Nat.add_succ_comm.
Qed.

(** The prompt is built when the template library accepts both templates;
    otherwise the error of the first rejected one is raised. *)
Lemma build_prompt_cases h :
  (templates_accepted h
   ∧ build_prompt
       (default SYSTEM_PROMPT_TEMPLATE
          (systemPromptTemplate (options_param h)))
       (default false (multiClass (options_param h))) (fallback_of h)
     = Ok (prompt_of h))
  ∨ ∃ e,
      build_prompt
        (default SYSTEM_PROMPT_TEMPLATE
           (systemPromptTemplate (options_param h)))
        (default false (multiClass (options_param h))) (fallback_of h)
      = Throw e
      ∧ (template_error (system_template_of h) = Some e
         ∨ (template_error (system_template_of h) = None
            ∧ template_error "{inputText}" = Some e)).
Proof.
  unfold build_prompt, fromTemplate, templates_accepted.
  fold (system_template_of h).
  destruct (template_error (system_template_of h)) as [e|] eqn:Hsys.
  - right. exists e. by eauto.
  - destruct (template_error "{inputText}") as [e|] eqn:Hhum.
    + right. exists e. by eauto.
    + by left.
Qed.

Lemma setup_spec h cats st :
  templates_accepted h →
  setup h cats st
  = (Ok (fallback_of h, parser_of h cats, chain_of h cats),
     mkState (world st)
       (log st ++ [EvSchemaBuilt (build_schema cats (fallback_of h));
                   EvPromptBuilt (prompt_of h)])
       (returnData st)).
Proof.
  intros Hacc.
  destruct (build_prompt_cases h) as [[_ Hok]|(e & _ & [Hsys|[_ Hhum]])].
  - unfold setup, mbind, M_bind, emit, lift, mret, M_ret. simpl.
    fold (fallback_of h). rewrite Hok. simpl. by rewrite <- app_assoc.
  - destruct Hacc as [Hacc _]. by rewrite Hacc in Hsys.
  - destruct Hacc as [_ Hacc]. by rewrite Hacc in Hhum.
Qed.

Lemma setup_rejected h cats st e :
  build_prompt
    (default SYSTEM_PROMPT_TEMPLATE (systemPromptTemplate (options_param h)))
    (default false (multiClass (options_param h))) (fallback_of h)
  = Throw e →
  setup h cats st
  = (Throw e,
     mkState (world st)
       (log st ++ [EvSchemaBuilt (build_schema cats (fallback_of h))])
       (returnData st)).
Proof.
  intros Hbad. unfold setup, mbind, M_bind, emit, lift. simpl.
  fold (fallback_of h). by rewrite Hbad.
Qed.

Lemma new_returnData_well_sized cats fb :
  well_sized cats fb (new_returnData cats fb).
Proof. unfold well_sized, new_returnData. apply length_replicate. Qed.

End execution_facts.

(** ** Whole runs *)

Section run_facts.
Context `{Collaborators World}.
Implicit Types (st : State (World := World)) (w : World).
Implicit Types (h : IExecuteFunctions) (cats : list Category).
Implicit Types (fb : string) (parser : Parser) (chain : Chain).
Implicit Types (item : INodeExecutionData) (items : list INodeExecutionData).

(** The first event of an invocation is the invocation itself. *)
Lemma classify_first_event chain v w :
  ∃ r w' evs, classify chain v w = (r, w', EvChainInvoked v :: evs).
Proof.
  unfold classify, chain_invoke, mbind, M_bind, emit, lift, call_llm. simpl.
  destruct (formatMessages (chain_prompt chain) v) as [messages|e]; simpl;
    [|by eauto].
  destruct (llm_invoke _ w) as [[completion|e] w1]; simpl; [|by eauto].
  destruct (chain_parser chain) as [s|s]; simpl.
  - unfold lift. by eauto.
  - destruct (structured_parse s completion) as [a|e]; simpl.
    + unfold mret, M_ret. by eauto.
    + unfold mbind, M_bind, call_llm, lift. simpl.
      destruct (llm_invoke _ w1) as [[fixed|e'] w2]; simpl; by eauto.
Qed.

(** When the prompt formats, the model is asked with its messages. *)
Lemma classify_formatted chain v w messages :
  formatMessages (chain_prompt chain) v = Ok messages →
  ∃ r w' evs,
    classify chain v w
    = (r, w',
       EvChainInvoked v :: EvModelCall (PromptValue messages) :: evs).
Proof.
  intros Hfmt.
  unfold classify, chain_invoke, mbind, M_bind, emit, lift, call_llm. simpl.
  rewrite Hfmt. simpl.
  destruct (llm_invoke _ w) as [[completion|e] w1]; simpl; [|by eauto].
  destruct (chain_parser chain) as [s|s]; simpl.
  - unfold lift. by eauto.
  - destruct (structured_parse s completion) as [a|e]; simpl.
    + unfold mret, M_ret. by eauto.
    + unfold mbind, M_bind, call_llm, lift. simpl.
      destruct (llm_invoke _ w1) as [[fixed|e'] w2]; simpl; by eauto.
Qed.


(** Without the fixing parser the events are those of [chain_trace]. *)
Lemma classify_structured_events chain v w schema :
  chain_parser chain = StructuredOutputParser schema →
  (classify chain v w).2 = chain_trace chain v.
Proof.
  intros Hp.
  unfold classify, chain_trace, chain_invoke, mbind, M_bind, emit, lift,
    call_llm.
  simpl.
  destruct (formatMessages (chain_prompt chain) v) as [messages|e]; simpl;
    [|done].
  destruct (llm_invoke _ w) as [[completion|e] w1]; simpl; [|done].
  rewrite Hp. simpl. unfold lift. done.
Qed.


Lemma outcomes_length h cats parser chain items : ∀ i w,
  length (outcomes h cats parser chain i items w) = length items.
Proof.
  induction items as [|item rest IH]; intros i w; simpl; [done|].
  destruct (item_outcome h cats parser chain i w) as [[o w1] evs].
  simpl. by rewrite IH.
Qed.


Lemma collect_elem cats fb j items : ∀ i os n item o x,
  items !! n = Some item →
  os !! n = Some o →
  x ∈ contribution cats fb (i + n) item o j →
  x ∈ collect cats fb j i items os.
Proof.
  induction items as [|item0 rest IH]; intros i os n item o x; [done|].
  destruct os as [|o0 os]; [done|]. simpl.
  destruct n as [|n]; simpl.
  - intros [= ->] [= ->]. rewrite Nat.add_0_r. intros Hx.
    apply elem_of_app. by left.
  - intros Hitem Ho Hx. apply elem_of_app. right.
    eapply IH; [done|done|]. by rewrite Nat.add_succ_comm.
Qed.

Lemma collect_elem_inv cats fb j items : ∀ i os x,
  x ∈ collect cats fb j i items os →
  ∃ n item o,
    items !! n = Some item ∧ os !! n = Some o
    ∧ x ∈ contribution cats fb (i + n) item o j.
Proof.
  induction items as [|item0 rest IH]; intros i os x; simpl.
  - intros Hx. by apply elem_of_nil in Hx.
  - destruct os as [|o0 os]; [intros Hx; by apply elem_of_nil in Hx|].
    rewrite elem_of_app. intros [Hx|Hx].
    + exists 0, item0, o0. by rewrite Nat.add_0_r.
    + destruct (IH _ _ _ Hx) as (n & item & o & ? & ? & ?).
      exists (S n), item, o. by rewrite <- Nat.add_succ_comm.
Qed.

Lemma contribution_paired cats fb i item o j x :
  x ∈ contribution cats fb i item o j → pairedItem x = Some i.
Proof.
  destruct o as [|e|output]; simpl.
  1,2: case_decide; [|intros Hx; by apply elem_of_nil in Hx];
    rewrite list_elem_of_singleton; by intros ->.
  unfold deliveries. rewrite elem_of_app.
  intros [Hx|Hx].
  - destruct (category_hit cats output j);
      [apply list_elem_of_singleton in Hx as ->; done
      |by apply elem_of_nil in Hx].
  - destruct (fallback_hit cats fb output j);
      [apply list_elem_of_singleton in Hx as ->; done
      |by apply elem_of_nil in Hx].
Qed.

(** A per-item run that no item aborts. *)
Lemma execute_per_item_ok h st :
  categories_param h ≠ [] →
  templates_accepted h →
  continueOnFail h = true
  ∨ Forall (λ o, is_classified o = true) (run_outcomes h (world st)) →
  let cats := categories_param h in
  let trace :=
    outcomes h cats (parser_of h cats) (chain_of h cats) 0 (getInputData h)
      (world st) in
  let rd :=
    append_to (λ j, collect cats (fallback_of h) j 0 (getInputData h) trace.*1)
      (new_returnData cats (fallback_of h)) in
  ∃ w',
    execute_per_item h st
    = (Ok rd,
       mkState w'
         (log st
          ++ [EvSchemaBuilt (build_schema cats (fallback_of h));
              EvPromptBuilt (prompt_of h)]
          ++ concat trace.*2)
         rd).
Proof.
  intros Hne Hacc Hmode. cbv zeta. unfold execute_per_item.
  assert (Hlen : length (categories_param h) ≠ 0)
    by (destruct (categories_param h); done).
  rewrite decide_False by done.
  unfold mbind, M_bind. rewrite setup_spec by done.
  unfold set_returnData. simpl.
  set (st1 := mkState _ _ _).
  destruct (process_items_ok h (categories_param h) (fallback_of h)
              (parser_of h (categories_param h))
              (chain_of h (categories_param h)) (getInputData h) 0 st1)
    as [w' ->].
  - apply new_returnData_well_sized.
  - done.
  - destruct Hmode as [?|Hall]; [by left|right].
    unfold run_outcomes in Hall. by apply Forall_fmap in Hall.
  - exists w'. unfold get_returnData. simpl.
    by rewrite <- app_assoc.
Qed.

End run_facts.

(** ** The answer schema *)

Lemma schemaEntries_keys (cats : list Category) (fb : string) :
  (schemaEntries cats fb).*1
  = (category <$> cats) ++ (if decide (fb = "other") then ["fallback"] else []).
Proof.
  unfold schemaEntries. case_decide.
  - rewrite fmap_app. simpl. f_equal. by rewrite <- list_fmap_compose.
  - rewrite app_nil_r. by rewrite <- list_fmap_compose.
Qed.


Lemma schema_fields_elem (cats : list Category) (fb : string) (k : string) :
  k ∈ schema_fields (build_schema cats fb)
  ↔ k ∈ category <$> cats ∨ (fb = "other" ∧ k = "fallback").
Proof.
  unfold schema_fields, build_schema. simpl.
  rewrite Js_keys_Permutation, Js_fromEntries_keys_elem, schemaEntries_keys.
  rewrite elem_of_app. case_decide.
  - rewrite list_elem_of_singleton. tauto.
  - rewrite elem_of_nil. tauto.
Qed.

Lemma schema_fields_fresh (cats : list Category) (fb : string) :
  NoDup (category <$> cats) →
  (fb = "other" → "fallback" ∉ category <$> cats) →
  shape (build_schema cats fb) = schemaEntries cats fb.
Proof.
  intros Hnd Hfb. unfold build_schema. simpl.
  apply Js_fromEntries_fresh. rewrite schemaEntries_keys.
  case_decide.
  - apply NoDup_app. split_and!; [done| |apply NoDup_singleton].
    intros k Hk. rewrite list_elem_of_singleton. intros ->. by apply Hfb.
  - by rewrite app_nil_r.
Qed.




Lemma Js_get_fold_set_absent {V : Type} (k : string)
    (es acc : list (string * V)) :
  k ∉ es.*1 →
  Js.get k (foldl (λ o e, Js.set e.1 e.2 o) acc es) = Js.get k acc.
Proof.
  revert acc. induction es as [|[k0 v0] es IH]; intros acc; simpl; [done|].
  rewrite not_elem_of_cons. intros [Hne Hni].
  rewrite IH by done. by apply Js_get_set_other.
Qed.

Lemma Js_get_fromEntries_last {V : Type} (k : string) (v : V)
    (before after : list (string * V)) :
  k ∉ after.*1 →
  Js.get k (Js.fromEntries (before ++ (k, v) :: after)) = Some v.
Proof.
  intros Hni. unfold Js.fromEntries. rewrite foldl_app. simpl.
  rewrite Js_get_fold_set_absent by done. apply Js_get_set.
Qed.

(** The field of a repeated name is described by the last category. *)
Lemma schema_last_description
    (before after : list Category) (c : Category) (fb : string) :
  category c ∉ category <$> after →
  (fb = "other" → category c ≠ "fallback") →
  Js.get (category c) (shape (build_schema (before ++ c :: after) fb))
  = Some (mkZodBoolean
            ("Should be true if the input has category " +:+ dq
             +:+ category c +:+ dq +:+ " (description: " +:+ description c
             +:+ ")")).
Proof.
  intros Hlast Hfb. unfold build_schema, schemaEntries. simpl.
  rewrite fmap_app, fmap_cons.
  assert (Hafter : category c ∉ (category_field <$> after).*1)
    by (by rewrite <- list_fmap_compose).
  case_decide as Hother.
  - rewrite <- app_assoc. simpl.
    change (category_field c) with (category c, (category_field c).2).
    apply Js_get_fromEntries_last.
    rewrite fmap_app. simpl. rewrite elem_of_app, list_elem_of_singleton.
    intros [?|?]; [done|]. by apply Hfb.
  - change (category_field c) with (category c, (category_field c).2).
    by apply Js_get_fromEntries_last.
Qed.

(** Enumeration order is not creation order when names are array indices. *)
Example schema_fields_array_index_order :
  schema_fields
    (build_schema [mkCategory "urgent" "needs action today";
                   mkCategory "7" "ticket queue seven"] "discard")
  = ["7"; "urgent"].
Proof. reflexivity. Qed.

(** C2 (as stated, refuted): with the fallback policy [other], a category
    set whose only category is itself named [fallback] yields a schema of
    one field, not of two. *)
Lemma schema_field_count_fallback_name :
  let cats := [mkCategory "fallback" "anything else"] in
  schema_fields (build_schema cats "other") = ["fallback"]
  ∧ length (schema_fields (build_schema cats "other")) ≠ length cats + 1.
Proof. split; [reflexivity|]. vm_compute. lia. Qed.

(** C2 (amended): for a category set with pairwise distinct names, none of
    which is [fallback] when the policy is [other], the schema has one
    boolean field per category plus the [fallback] field under [other], and
    exactly one field per category under [discard]; its fields are the
    category names (and [fallback]); and when no name is an array index the
    fields are enumerated in category-set order, [fallback] last. *)
Theorem schema_field_count (cats : list Category) (fb : string) :
  NoDup (category <$> cats) →
  (fb = "other" → "fallback" ∉ category <$> cats) →
  (fb = "other" →
     length (schema_fields (build_schema cats fb)) = length cats + 1)
  ∧ (fb = "discard" →
     length (schema_fields (build_schema cats fb)) = length cats)
  ∧ (∀ k, k ∈ schema_fields (build_schema cats fb)
          ↔ k ∈ category <$> cats ∨ (fb = "other" ∧ k = "fallback"))
  ∧ (Forall (λ k, Js.array_index k = None) (category <$> cats) →
     schema_fields (build_schema cats fb)
     = (category <$> cats)
       ++ (if decide (fb = "other") then ["fallback"] else [])).
Proof.
  intros Hnd Hfb.
  assert (Hlen : length (schema_fields (build_schema cats fb))
                 = length cats + (if decide (fb = "other") then 1 else 0)).
  { unfold schema_fields. rewrite Js_keys_length.
    rewrite (schema_fields_fresh _ _ Hnd Hfb).
    rewrite <- (length_fmap fst), schemaEntries_keys, length_app, length_fmap.
    by case_decide. }
  split_and!.
  - intros ->. by rewrite Hlen.
  - intros ->. rewrite Hlen. simpl. lia.
  - apply schema_fields_elem.
  - intros Hplain. unfold schema_fields.
    rewrite (schema_fields_fresh _ _ Hnd Hfb).
    rewrite Js_keys_plain; rewrite schemaEntries_keys; [done|].
    apply Forall_app. split; [done|]. case_decide; [|done].
    apply Forall_singleton. reflexivity.
Qed.

(** The schema of [Bug] and [Feature] under the policy [other]. *)
Lemma schema_field_count_witness :
  schema_fields (build_schema Script.bug_feature "other")
  = ["Bug"; "Feature"; "fallback"].
Proof.
  apply (schema_field_count Script.bug_feature "other").
  - compute_done.
  - intros _. compute_done.
  - compute_done.
Defined.

(** ** Routing of one item *)

Lemma field_true_fallback (output : list (string * bool)) :
  field_true output "fallback" = truthy (Js.get "fallback" output).
Proof. unfold field_true. by destruct (Js.get "fallback" output). Qed.

Section routing.
Context `{Collaborators World}.
Implicit Types (st : State (World := World)) (w : World).
Implicit Types (h : IExecuteFunctions) (cats : list Category).
Implicit Types (fb : string) (parser : Parser) (chain : Chain).
Implicit Types (item : INodeExecutionData) (output : list (string * bool)).

Lemma process_item_classified h cats fb parser chain i item st input output st1 :
  well_sized cats fb (returnData st) →
  cats ≠ [] →
  inputText_param h i = Text input →
  chain_invoke chain (chain_input cats parser input) st = (Ok output, st1) →
  process_item h cats fb parser chain i item st
  = (Ok (),
     mkState (world st1) (log st1)
       (append_to (deliveries cats fb output (mkItem (json item) (Some i)))
          (returnData st))).
Proof.
  intros Hlen Hne Htext Hchain.
  rewrite chain_invoke_classify in Hchain.
  destruct (classify chain (chain_input cats parser input) (world st))
    as [[r w'] evs] eqn:Hc.
  injection Hchain as -> <-. simpl.
  apply (process_item_ok h cats fb parser chain i item st
           (Classified output) w' evs); [done|done| |by right].
  unfold item_outcome. by rewrite Htext, Hc.
Qed.

Lemma process_item_failed h cats fb parser chain i item st input e st1 :
  well_sized cats fb (returnData st) →
  cats ≠ [] →
  inputText_param h i = Text input →
  chain_invoke chain (chain_input cats parser input) st = (Throw e, st1) →
  process_item h cats fb parser chain i item st
  = if continueOnFail h
    then (Ok (),
          mkState (world st1) (log st1)
            (append_to
               (λ j, if decide (j = 0)
                     then [mkItem [("error", JString (message e))] (Some i)]
                     else [])
               (returnData st)))
    else (Throw e, st1).
Proof.
  intros Hlen Hne Htext Hchain.
  rewrite chain_invoke_classify in Hchain.
  destruct (classify chain (chain_input cats parser input) (world st))
    as [[r w'] evs] eqn:Hc.
  injection Hchain as -> <-.
  assert (Ho : item_outcome h cats parser chain i (world st)
               = (Failed e, w', evs))
    by (unfold item_outcome; by rewrite Htext, Hc).
  destruct (continueOnFail h) eqn:Hmode.
  - by rewrite (process_item_ok _ _ _ _ _ _ _ _ _ _ _ Hlen Hne Ho)
      by (by left).
  - by rewrite (process_item_abort _ _ _ _ _ _ _ _ _ _ _ e Ho Hmode).
Qed.

(** Whatever the mode, an item leaves in the log the events of its
    outcome. *)
Lemma process_item_log h cats fb parser chain i item st o w' evs r st' :
  well_sized cats fb (returnData st) →
  cats ≠ [] →
  item_outcome h cats parser chain i (world st) = (o, w', evs) →
  process_item h cats fb parser chain i item st = (r, st') →
  log st' = log st ++ evs.
Proof.
  intros Hlen Hne Ho Hrun.
  destruct (continueOnFail h) eqn:Hmode.
  - rewrite (process_item_ok _ _ _ _ _ _ _ _ _ _ _ Hlen Hne Ho) in Hrun
      by (by left).
    by injection Hrun as _ <-.
  - destruct (abort_error i o) as [err|] eqn:Herr.
    + rewrite (process_item_abort _ _ _ _ _ _ _ _ _ _ _ _ Ho Hmode Herr)
        in Hrun.
      by injection Hrun as _ <-.
    + destruct o; try done.
      rewrite (process_item_ok _ _ _ _ _ _ _ _ _ _ _ Hlen Hne Ho) in Hrun
        by (by right).
      by injection Hrun as _ <-.
Qed.

(** C1: when the classification of an item succeeds, the loop body appends
    the item (with its origin) to the branch of every category whose answer
    field is true, and to the trailing branch when the fallback policy is
    [other] and the answer's [fallback] field is true.  A branch whose
    field is false is left as it was; a category whose field the answer
    lacks is read from [Object.prototype], so its branch is left as it was
    unless the category bears the name of an inherited property.  The
    node's options, [multiClass] among them, are arbitrary: several true
    fields put the item on every corresponding branch. *)
Theorem router_appends_to_true_branches
    h cats fb parser chain i item st input output st1 :
  well_sized cats fb (returnData st) →
  cats ≠ [] →
  inputText_param h i = Text input →
  chain_invoke chain (chain_input cats parser input) st = (Ok output, st1) →
  ∃ st',
    process_item h cats fb parser chain i item st = (Ok (), st')
    ∧ length (returnData st') = length (returnData st)
    ∧ (∀ j cat branch,
         cats !! j = Some cat →
         returnData st !! j = Some branch →
         (Js.get (category cat) output = Some true →
          returnData st' !! j
          = Some (branch ++ [mkItem (json item) (Some i)]))
         ∧ (Js.get (category cat) output = Some false →
            returnData st' !! j = Some branch)
         ∧ (Js.get (category cat) output = None →
            returnData st' !! j
            = Some (branch ++ if bool_decide (category cat ∈ Js.prototype_keys)
                              then [mkItem (json item) (Some i)] else [])))
    ∧ (∀ branch,
         returnData st !! length cats = Some branch →
         (fb = "other" → Js.get "fallback" output = Some true →
          returnData st' !! length cats
          = Some (branch ++ [mkItem (json item) (Some i)]))
         ∧ (fb ≠ "other" ∨ Js.get "fallback" output ≠ Some true →
            returnData st' !! length cats = Some branch)).
Proof.
  intros Hlen Hne Htext Hchain.
  eexists. split; [by eapply process_item_classified|]. simpl.
  split; [apply append_to_length|]. split.
  - intros j cat branch Hcat Hb. rewrite append_to_lookup, Hb. simpl.
    unfold deliveries, category_hit, fallback_hit, field_true. rewrite Hcat.
    rewrite (bool_decide_eq_false_2 (j = length cats))
      by (apply lookup_lt_Some in Hcat; lia).
    rewrite andb_false_r, app_nil_r.
    split_and!; intros ->; by rewrite ?app_nil_r.
  - intros branch Hb. rewrite append_to_lookup, Hb. simpl.
    unfold deliveries, category_hit, fallback_hit.
    rewrite lookup_ge_None_2 by lia.
    rewrite (bool_decide_eq_true_2 (length cats = length cats)) by done.
    rewrite andb_true_r, field_true_fallback. simpl. split.
    + intros -> ->. done.
    + intros [Hfb|Hget].
      * rewrite bool_decide_eq_false_2 by done. simpl. by rewrite app_nil_r.
      * destruct (Js.get "fallback" output) as [[|]|]; try done;
          by rewrite andb_false_r, app_nil_r.
Qed.


(** C10: the loop body takes the missing-text path exactly when the
    resolved text is [undefined] or [null]: only then is the chain not
    invoked, and the node's missing-text error is recorded on branch 0 by a
    tolerant run and raised by an intolerant one.  The empty string is a
    text like any other: the chain is invoked with it, the model is called
    with the formatted prompt whenever the prompt formats, the item is
    routed from the answer when the chain succeeds, and when the chain fails
    the error is the chain's own. *)
Theorem missing_text_only_when_undefined_or_null
    h cats fb parser chain i item st r st' :
  well_sized cats fb (returnData st) →
  cats ≠ [] →
  process_item h cats fb parser chain i item st = (r, st') →
  ((inputText_param h i = Undefined ∨ inputText_param h i = Null)
   ↔ log st' = log st)
  ∧ (inputText_param h i = Undefined ∨ inputText_param h i = Null →
     (continueOnFail h = true →
        r = Ok ()
        ∧ returnData st'
          = append_to
              (λ j, if decide (j = 0)
                    then [mkItem
                            [("error",
                              JString "Text to classify is not defined")]
                            (Some i)]
                    else [])
              (returnData st))
     ∧ (continueOnFail h = false →
        r = Throw (NodeOperationError
                     ("Text to classify for item " +:+ pretty i
                      +:+ " is not defined"))))
  ∧ (inputText_param h i = Text EmptyString →
     (∃ evs,
        log st'
        = log st
          ++ EvChainInvoked (chain_input cats parser EmptyString) :: evs)
     ∧ (∀ messages,
          formatMessages (chain_prompt chain)
            (chain_input cats parser EmptyString) = Ok messages →
          ∃ evs,
            log st'
            = log st
              ++ EvChainInvoked (chain_input cats parser EmptyString)
                 :: EvModelCall (PromptValue messages) :: evs)
     ∧ (∀ output st1,
          chain_invoke chain (chain_input cats parser EmptyString) st
          = (Ok output, st1) →
          r = Ok ()
          ∧ returnData st'
            = append_to
                (deliveries cats fb output (mkItem (json item) (Some i)))
                (returnData st))
     ∧ (∀ e st1,
          chain_invoke chain (chain_input cats parser EmptyString) st
          = (Throw e, st1) →
          (continueOnFail h = true →
             r = Ok ()
             ∧ returnData st'
               = append_to
                   (λ j, if decide (j = 0)
                         then [mkItem [("error", JString (message e))]
                                 (Some i)]
                         else [])
                   (returnData st))
          ∧ (continueOnFail h = false → r = Throw e))).
Proof.
  intros Hlen Hne Hrun.
  destruct (item_outcome h cats parser chain i (world st))
    as [[o w'] evs] eqn:Ho.
  pose proof (process_item_log _ _ _ _ _ _ _ _ _ _ _ _ _ Hlen Hne Ho Hrun)
    as Hlog.
  assert (Hdefined : ∀ input, inputText_param h i = Text input →
    ∃ evs', evs = EvChainInvoked (chain_input cats parser input) :: evs').
  { intros input Htext. unfold item_outcome in Ho. rewrite Htext in Ho.
    destruct (classify_first_event chain (chain_input cats parser input)
                (world st)) as (r0 & w0 & evs0 & Hc).
    rewrite Hc in Ho. exists evs0. by destruct r0; injection Ho as _ _ <-. }
  assert (Hmissing : inputText_param h i = Undefined
                     ∨ inputText_param h i = Null →
                     o = MissingText ∧ evs = []).
  { intros Htext. unfold item_outcome in Ho.
    by destruct Htext as [Htext|Htext]; rewrite Htext in Ho;
      injection Ho as <- _ <-. }
  split_and!.
  - split.
    + intros Htext. destruct (Hmissing Htext) as [_ ->].
      by rewrite Hlog, app_nil_r.
    + intros Hsame. destruct (inputText_param h i) as [| |input] eqn:Htext;
        [by left|by right|].
      destruct (Hdefined input eq_refl) as [evs' ->].
      rewrite Hlog in Hsame. apply (f_equal length) in Hsame.
      rewrite length_app in Hsame. simpl in Hsame. lia.
  - intros Htext. destruct (Hmissing Htext) as [-> ->]. split.
    + intros Hmode.
      rewrite (process_item_ok _ _ _ _ _ _ _ _ _ _ _ Hlen Hne Ho) in Hrun
        by (by left).
      by injection Hrun as <- <-.
    + intros Hmode.
      rewrite (process_item_abort _ _ _ _ _ _ _ _ _ _ _ _ Ho Hmode eq_refl)
        in Hrun.
      by injection Hrun as <- _.
  - intros Htext. split_and!.
    + destruct (Hdefined _ Htext) as [evs' ->]. by exists evs'.
    + intros messages Hfmt. unfold item_outcome in Ho. rewrite Htext in Ho.
      destruct (classify_formatted chain
                  (chain_input cats parser EmptyString) (world st) messages
                  Hfmt) as (r0 & w0 & evs0 & Hc).
      rewrite Hc in Ho. exists evs0. rewrite Hlog.
      by destruct r0; injection Ho as _ _ <-.
    + intros output st1 Hchain.
      rewrite (process_item_classified _ _ _ _ _ _ _ _ _ _ _
                 Hlen Hne Htext Hchain) in Hrun.
      by injection Hrun as <- <-.
    + intros e st1 Hchain.
      rewrite (process_item_failed _ _ _ _ _ _ _ _ _ _ _
                 Hlen Hne Htext Hchain) in Hrun.
      split; intros Hmode; rewrite Hmode in Hrun; by injection Hrun as <- <-.
Qed.

End routing.

(** ** Runs of the node *)

Section runs.
Context `{Collaborators World}.
Implicit Types (st : State (World := World)) (w : World).
Implicit Types (h : IExecuteFunctions) (cats : list Category).
Implicit Types (item : INodeExecutionData) (output : list (string * bool)).

Lemma field_true_spec output key :
  field_true output key = true
  ↔ Js.get key output = Some true
    ∨ (Js.get key output = None ∧ key ∈ Js.prototype_keys).
Proof.
  unfold field_true. destruct (Js.get key output) as [[|]|].
  - split; [by left|done].
  - split; [done|]. by intros [?|[? _]].
  - rewrite bool_decide_eq_true. split; [by right|]. by intros [?|[_ ?]].
Qed.

Lemma deliveries_elem cats fb output item j x :
  x ∈ deliveries cats fb output item j
  ↔ x = item
    ∧ ((∃ cat, cats !! j = Some cat
               ∧ (Js.get (category cat) output = Some true
                  ∨ (Js.get (category cat) output = None
                     ∧ category cat ∈ Js.prototype_keys)))
       ∨ (fb = "other" ∧ j = length cats
          ∧ Js.get "fallback" output = Some true)).
Proof.
  unfold deliveries, category_hit, fallback_hit. rewrite elem_of_app.
  split.
  - intros [Hx|Hx].
    + destruct (cats !! j) as [cat|]; [|by apply elem_of_nil in Hx].
      destruct (field_true output (category cat)) eqn:Hhit;
        [|by apply elem_of_nil in Hx].
      apply list_elem_of_singleton in Hx. split; [done|]. left.
      exists cat. split; [done|]. by apply field_true_spec.
    + destruct (bool_decide (fb = "other")) eqn:Hfb; simpl in Hx;
        [|by apply elem_of_nil in Hx].
      destruct (field_true output "fallback") eqn:Hhit; simpl in Hx;
        [|by apply elem_of_nil in Hx].
      destruct (bool_decide (j = length cats)) eqn:Hj;
        [|by apply elem_of_nil in Hx].
      apply list_elem_of_singleton in Hx.
      apply bool_decide_eq_true in Hfb, Hj. split; [done|]. right.
      split; [done|]. split; [done|].
      rewrite field_true_fallback in Hhit.
      by destruct (Js.get "fallback" output) as [[|]|].
  - intros [-> [(cat & Hcat & Hhit)|(Hfb & Hj & Hhit)]].
    + left. rewrite Hcat. apply field_true_spec in Hhit. rewrite Hhit.
      by apply list_elem_of_singleton.
    + right. rewrite field_true_fallback, Hhit.
      rewrite !bool_decide_eq_true_2 by done. simpl.
      by apply list_elem_of_singleton.
Qed.

Lemma execute_aggregate_spec h st cats input :
  categories_from_items 0 (getInputData h) = Ok cats →
  cats ≠ [] →
  inputText_param h 0 = Text input →
  templates_accepted h →
  execute_aggregate h st
  = match chain_invoke (chain_of h cats)
            (chain_input cats (parser_of h cats) input)
            (mkState (world st)
               (log st ++ [EvSchemaBuilt (build_schema cats (fallback_of h));
                           EvPromptBuilt (prompt_of h)])
               (returnData st)) with
    | (Ok output, st') => (Ok [[answer_item output input]], st')
    | (Throw e, st') => (Ok [[error_item (message e) None]], st')
    end.
Proof.
  intros Hcats Hne Htext Hacc. unfold execute_aggregate, mbind, M_bind, lift.
  rewrite Hcats. rewrite decide_False by (by destruct cats).
  rewrite Htext. fold (@lift World). rewrite setup_spec by done.
  unfold try_catch, mbind, M_bind.
  by destruct (chain_invoke _ _ _) as [[output|e] st'].
Qed.

(** C3: in per-item mode with failure-tolerant mode active, a run that has
    categories and whose prompt templates are accepted completes whatever
    the items do.  It returns one branch per category (plus the fallback
    branch), each branch holding, in input order, what every item
    contributes to it: an item without text or whose classification fails
    leaves on branch 0 an error record with the error's message and the
    item's index, and a classified item is on a branch exactly when the
    branch's field is true in its answer (a field the answer lacks being
    read from [Object.prototype]). *)
Theorem tolerant_run_completes h st :
  loadCategoriesFromInputItems h = false →
  continueOnFail h = true →
  categories_param h ≠ [] →
  templates_accepted h →
  ∃ rd st',
    execute h st = (Ok rd, st')
    ∧ length rd
      = length (categories_param h)
        + (if decide (fallback_of h = "other") then 1 else 0)
    ∧ (∀ j, j < length rd →
         rd !! j
         = Some (collect (categories_param h) (fallback_of h) j 0
                   (getInputData h) (run_outcomes h (world st))))
    ∧ (∀ i,
         run_outcomes h (world st) !! i = Some MissingText →
         ∃ branch,
           rd !! 0 = Some branch
           ∧ mkItem [("error", JString "Text to classify is not defined")]
               (Some i) ∈ branch)
    ∧ (∀ i e,
         run_outcomes h (world st) !! i = Some (Failed e) →
         ∃ branch,
           rd !! 0 = Some branch
           ∧ mkItem [("error", JString (message e))] (Some i) ∈ branch)
    ∧ (∀ i item output j branch,
         getInputData h !! i = Some item →
         run_outcomes h (world st) !! i = Some (Classified output) →
         rd !! j = Some branch →
         mkItem (json item) (Some i) ∈ branch
         ↔ (∃ cat, categories_param h !! j = Some cat
                   ∧ (Js.get (category cat) output = Some true
                      ∨ (Js.get (category cat) output = None
                         ∧ category cat ∈ Js.prototype_keys)))
           ∨ (fallback_of h = "other" ∧ j = length (categories_param h)
              ∧ Js.get "fallback" output = Some true)).
Proof.
  intros Hmode Htol Hne Hacc. unfold execute. rewrite Hmode.
  destruct (execute_per_item_ok h st Hne Hacc (or_introl Htol))
    as [w' Hrun].
  cbv zeta in Hrun. rewrite Hrun. clear Hrun.
  fold (run_outcomes h (world st)).
  set (cats := categories_param h) in *. set (fb := fallback_of h).
  set (os := run_outcomes h (world st)).
  set (rd := append_to _ _).
  assert (Hlen : length rd = length cats
                 + (if decide (fb = "other") then 1 else 0)).
  { unfold rd. rewrite append_to_length. apply new_returnData_well_sized. }
  assert (Hbranch : ∀ j, j < length rd →
            rd !! j = Some (collect cats fb j 0 (getInputData h) os)).
  { intros j Hj. unfold rd at 1. rewrite append_to_lookup.
    unfold new_returnData. rewrite lookup_replicate_2; [done|].
    by rewrite <- Hlen. }
  assert (Hitems : length os = length (getInputData h)).
  { unfold os, run_outcomes. by rewrite length_fmap, outcomes_length. }
  assert (Hpos : 0 < length rd)
    by (rewrite Hlen; destruct cats; simpl; [done|lia]).
  assert (Herr : ∀ i o,
            os !! i = Some o → is_classified o = false →
            mkItem [("error", JString (default EmptyString
                                         (failure_message o)))] (Some i)
            ∈ collect cats fb 0 0 (getInputData h) os).
  { intros i o Ho Hfail.
    destruct (lookup_lt_is_Some_2 (getInputData h) i) as [item Hitem].
    { rewrite <- Hitems. by eapply lookup_lt_Some. }
    eapply collect_elem; [done|done|]. simpl.
    destruct o; simpl in *; try done; by apply list_elem_of_singleton. }
  eexists rd, _. split; [done|]. split; [done|]. split; [done|].
  split_and!.
  - intros i Ho. exists (collect cats fb 0 0 (getInputData h) os).
    split; [by apply Hbranch|]. by apply (Herr i MissingText).
  - intros i e Ho. exists (collect cats fb 0 0 (getInputData h) os).
    split; [by apply Hbranch|]. by apply (Herr i (Failed e)).
  - intros i item output j branch Hitem Ho Hj.
    rewrite Hbranch in Hj by (by eapply lookup_lt_Some).
    injection Hj as <-.
    split.
    + intros Hx. apply collect_elem_inv in Hx
        as (n & item' & o' & Hitem' & Ho' & Hx).
      pose proof (contribution_paired _ _ _ _ _ _ _ Hx) as Hp.
      simpl in Hp. injection Hp as ->.
      rewrite Hitem in Hitem'. rewrite Ho in Ho'.
      injection Hitem' as <-. injection Ho' as <-.
      simpl in Hx. by apply deliveries_elem in Hx as [_ Hx].
    + intros Hx. eapply collect_elem; [done|done|]. simpl.
      by apply deliveries_elem.
Qed.

(** C4 (amended): in per-item mode with failure-tolerant mode off, in a run
    that has categories and whose prompt templates are accepted, the first
    item that fails aborts the run and no output branches are returned.  An
    item without text aborts it with an error whose message names the item's
    index; a classification error aborts it with the underlying error itself,
    rethrown as it came. *)
Theorem intolerant_run_aborts h st n o :
  loadCategoriesFromInputItems h = false →
  continueOnFail h = false →
  categories_param h ≠ [] →
  templates_accepted h →
  run_outcomes h (world st) !! n = Some o →
  is_classified o = false →
  (∀ m o', m < n → run_outcomes h (world st) !! m = Some o' →
           is_classified o' = true) →
  ∃ st',
    execute h st
    = (Throw match o with
             | Failed e => e
             | _ => NodeOperationError
                      ("Text to classify for item " +:+ pretty n
                       +:+ " is not defined")
             end,
       st').
Proof.
  intros Hmode Htol Hne Hacc Ho Hfail Hbefore.
  unfold execute, execute_per_item. rewrite Hmode.
  rewrite decide_False by (by destruct (categories_param h)).
  unfold mbind, M_bind. rewrite setup_spec by done.
  unfold set_returnData. simpl.
  set (st1 := mkState _ _ _).
  destruct (process_items_abort h (categories_param h) (fallback_of h)
              (parser_of h (categories_param h))
              (chain_of h (categories_param h)) (getInputData h) 0 st1 n o
              match o with
              | Failed e => e
              | _ => NodeOperationError
                       ("Text to classify for item " +:+ pretty n
                        +:+ " is not defined")
              end) as [st' ->]; try done.
  - apply new_returnData_well_sized.
  - by destruct o.
  - by exists st'.
Qed.


(** C6: in aggregate mode, once the categories are resolved, the text is
    defined and the prompt is built (its templates being accepted), whatever
    the single invocation of the chain does, the run returns exactly one
    branch holding exactly one item and does not raise: an error record with
    the message of the error when the chain raises (at formatting, at the
    model or at parsing); when it succeeds, the answer spread into an object
    together with the input text, that is, an object whose [input] is the
    text and whose other fields are the answer's. *)
Theorem aggregate_run_never_aborts h st cats input r st' :
  loadCategoriesFromInputItems h = true →
  categories_from_items 0 (getInputData h) = Ok cats →
  cats ≠ [] →
  inputText_param h 0 = Text input →
  templates_accepted h →
  chain_invoke (chain_of h cats) (chain_input cats (parser_of h cats) input)
    (mkState (world st)
       (log st ++ [EvSchemaBuilt (build_schema cats (fallback_of h));
                   EvPromptBuilt (prompt_of h)])
       (returnData st))
  = (r, st') →
  execute h st
  = (Ok [[match r with
          | Ok output =>
              mkItem
                (Js.set "input" (JString input) (Js.spread JBool output)) None
          | Throw e => mkItem [("error", JString (message e))] None
          end]],
     st')
  ∧ ∀ output, r = Ok output →
      Js.get "input"
        (Js.set "input" (JString input) (Js.spread JBool output))
      = Some (JString input)
      ∧ (NoDup output.*1 →
         ∀ k, k ≠ "input" →
           Js.get k (Js.set "input" (JString input) (Js.spread JBool output))
           = JBool <$> Js.get k output).
Proof.
  intros Hmode Hcats Hne Htext Hacc Hchain. split.
  - unfold execute. rewrite Hmode.
    rewrite (execute_aggregate_spec _ _ _ _ Hcats Hne Htext Hacc), Hchain.
    by destruct r.
  - intros output _. split; [apply Js_get_set|].
    intros Hnd k Hk. rewrite Js_get_set_other by done.
    by apply Js_get_spread.
Qed.

(** C8: in both modes an empty resolved category set raises the
    configuration error at once: the state is untouched, so no model was
    called and nothing was logged, and no output branches are returned. *)
Theorem empty_category_set_is_fatal h st :
  resolve_categories h = Ok [] →
  execute h st
  = (Throw (NodeOperationError "At least one category must be defined"), st).
Proof.
  unfold resolve_categories, execute.
  destruct (loadCategoriesFromInputItems h).
  - intros Hcats. unfold execute_aggregate, mbind, M_bind, lift.
    by rewrite Hcats.
  - intros [= Hcats]. unfold execute_per_item. by rewrite Hcats.
Qed.


End runs.

(** ** The theorems on concrete batches *)

Section examples.
Import Script.
Local Existing Instance collaborators.

(** An answer with two true fields under [multiClass = false]: the item goes
    to both category branches and not to the fallback branch. *)
Lemma router_appends_to_true_branches_witness :
  ∃ st',
    process_item multi_batch bug_feature "other"
      (parser_of multi_batch bug_feature) (chain_of multi_batch bug_feature)
      0 inbox_item three_branches = (Ok (), st')
    ∧ returnData st' !! 0
      = Some [mkItem [("source", JString "inbox")] (Some 0)]
    ∧ returnData st' !! 1
      = Some [mkItem [("source", JString "inbox")] (Some 0)]
    ∧ returnData st' !! 2 = Some [].
Proof.
  destruct (router_appends_to_true_branches multi_batch bug_feature "other"
              (parser_of multi_batch bug_feature)
              (chain_of multi_batch bug_feature)
              0 inbox_item three_branches "Bug Feature"
              [("Bug", true); ("Feature", true); ("fallback", false)]
              (chain_invoke (chain_of multi_batch bug_feature)
                 (chain_input bug_feature (parser_of multi_batch bug_feature)
                    "Bug Feature") three_branches).2)
    as (st' & Hrun & _ & Hcat & Hfb).
  - reflexivity.
  - done.
  - reflexivity.
  - reflexivity.
  - exists st'. split; [exact Hrun|].
    destruct (Hcat 0 (mkCategory "Bug" "defect report") [] eq_refl eq_refl)
      as (Hbug & _ & _).
    destruct (Hcat 1 (mkCategory "Feature" "enhancement request") []
                eq_refl eq_refl) as (Hfeature & _ & _).
    destruct (Hfb [] eq_refl) as (_ & Hother).
    split; [exact (Hbug eq_refl)|]. split; [exact (Hfeature eq_refl)|].
    apply Hother. right. discriminate.
Defined.


(** An item whose text is the empty string: the chain is invoked with it,
    and the model is called with the prompt formatted for it, whose human
    message is empty. *)
Lemma missing_text_only_when_undefined_or_null_witness :
  let run :=
    process_item blank_batch bug_feature "other"
      (parser_of blank_batch bug_feature) (chain_of blank_batch bug_feature)
      0 inbox_item three_branches in
  let v :=
    chain_input bug_feature (parser_of blank_batch bug_feature) EmptyString in
  (∃ system evs,
     log run.2
     = log three_branches
       ++ EvChainInvoked v
          :: EvModelCall
               (PromptValue
                  [mkMessage "system" system; mkMessage "human" EmptyString])
          :: evs)
  ∧ log run.2 ≠ log three_branches
  ∧ returnData run.2 = [[]; []; []].
Proof.
  intros run v.
  destruct (missing_text_only_when_undefined_or_null blank_batch bug_feature
              "other" (parser_of blank_batch bug_feature)
              (chain_of blank_batch bug_feature) 0 inbox_item three_branches
              run.1 run.2) as (Hiff & _ & Hblank).
  - reflexivity.
  - done.
  - apply surjective_pairing.
  - destruct (Hblank eq_refl) as (_ & Hcall & Hrouted & _).
    split_and!.
    + assert (Hformat :
        formatMessages (chain_prompt (chain_of blank_batch bug_feature)) v
        = Ok [mkMessage "system"
                (match format_template v (system_template_of blank_batch) with
                 | Ok system => system
                 | Throw _ => EmptyString
                 end);
              mkMessage "human" EmptyString]) by reflexivity.
      destruct (Hcall _ Hformat) as [evs Hevs]. by eexists _, evs.
    + intros Hlog. apply Hiff in Hlog. by destruct Hlog.
    + assert (Hchain :
        chain_invoke (chain_of blank_batch bug_feature) v three_branches
        = (Ok [("Bug", false); ("Feature", false); ("fallback", false)],
           (chain_invoke (chain_of blank_batch bug_feature) v
              three_branches).2)) by reflexivity.
      destruct (Hrouted _ _ Hchain) as [_ Hrd]. exact Hrd.
Defined.

(** A tolerant run over a classified item, an item without text, an item the
    model fails on and an item with two true fields. *)
Lemma tolerant_run_completes_witness :
  ∃ rd st',
    execute mixed_batch start = (Ok rd, st')
    ∧ length rd = 3
    ∧ ∃ branch,
        rd !! 0 = Some branch
        ∧ mkItem [("error", JString "Text to classify is not defined")]
            (Some 1) ∈ branch
        ∧ mkItem [("error", JString "model unavailable")] (Some 2) ∈ branch
        ∧ mkItem [("source", JString "inbox")] (Some 0) ∈ branch
        ∧ mkItem [("source", JString "inbox")] (Some 3) ∈ branch.
Proof.
  destruct (tolerant_run_completes mixed_batch start)
    as (rd & st' & Hrun & Hlen & _ & Hmissing & Hfailed & Hrouted).
  - reflexivity.
  - reflexivity.
  - done.
  - split; reflexivity.
  - exists rd, st'. split; [exact Hrun|]. split; [exact Hlen|].
    destruct (Hmissing 1) as (branch & Hb & H1); [reflexivity|].
    destruct (Hfailed 2 boom) as (branch' & Hb' & H2); [reflexivity|].
    rewrite Hb in Hb'. injection Hb' as <-. exists branch.
    split; [exact Hb|]. split; [exact H1|]. split; [exact H2|]. split.
    + apply (Hrouted 0 inbox_item
               [("Bug", true); ("Feature", false); ("fallback", false)]
               0 branch eq_refl eq_refl Hb).
      left. exists (mkCategory "Bug" "defect report"). split; [done|].
      by left.
    + apply (Hrouted 3 inbox_item
               [("Bug", true); ("Feature", true); ("fallback", false)]
               0 branch eq_refl eq_refl Hb).
      left. exists (mkCategory "Bug" "defect report"). split; [done|].
      by left.
Defined.

(** C4 (as stated, refuted): two intolerant runs, one failing at item 0 and
    one at item 1, abort with the same error; no reading of the error can
    tell which item failed. *)
Lemma abort_error_does_not_identify_item :
  ¬ ∃ index_of : Error → nat, abort_identifies_item index_of.
Proof.
  intros [index_of Hid].
  destruct (Hid failing_first start 0) as (e0 & st0 & Hrun0 & Hidx0);
    [reflexivity|reflexivity|done|by split| |].
  { split; [by exists (Failed boom)|]. intros m o' Hm. lia. }
  destruct (Hid failing_second start 1) as (e1 & st1 & Hrun1 & Hidx1);
    [reflexivity|reflexivity|done|by split| |].
  { split; [by exists (Failed boom)|]. intros m o' Hm Ho.
    destruct m as [|m]; [|lia]. by injection Ho as <-. }
  apply (f_equal fst) in Hrun0, Hrun1.
  vm_compute in Hrun0, Hrun1.
  injection Hrun0 as <-. injection Hrun1 as <-.
  rewrite Hidx0 in Hidx1. discriminate.
Qed.

(** Intolerant runs failing at item 1: on the model, and on a [null] text. *)
Lemma intolerant_run_aborts_witness :
  (∃ st', execute failing_second start = (Throw boom, st'))
  ∧ ∃ st',
      execute (batch false bug_feature "other" [Text "Bug"; Null]) start
      = (Throw (NodeOperationError "Text to classify for item 1 is not defined"),
         st').
Proof.
  split.
  - apply (intolerant_run_aborts failing_second start 1 (Failed boom)).
    + reflexivity.
    + reflexivity.
    + done.
    + split; reflexivity.
    + reflexivity.
    + reflexivity.
    + intros m o' Hm Ho. destruct m as [|m]; [|lia]. by injection Ho as <-.
  - apply (intolerant_run_aborts
             (batch false bug_feature "other" [Text "Bug"; Null]) start 1
             MissingText).
    + reflexivity.
    + reflexivity.
    + done.
    + split; reflexivity.
    + reflexivity.
    + reflexivity.
    + intros m o' Hm Ho. destruct m as [|m]; [|lia]. by injection Ho as <-.
Defined.


(** Aggregate runs: a classified text, a text the model fails on, and a
    prompt with a variable the chain has no value for. *)
Lemma aggregate_run_never_aborts_witness :
  (execute (aggregate bug_feature "other" (Text "Bug")) start).1
  = Ok [[mkItem [("Bug", JBool true); ("Feature", JBool false);
                 ("fallback", JBool false); ("input", JString "Bug")] None]]
  ∧ (execute (aggregate bug_feature "other" (Text "outage")) start).1
    = Ok [[mkItem [("error", JString "model unavailable")] None]]
  ∧ (execute (templated_aggregate "Classify about {topic}" (Text "Bug"))
       start).1
    = Ok [[mkItem
             [("error", JString "Missing value for input variable topic")]
             None]].
Proof.
  split_and!.
  - rewrite (proj1 (aggregate_run_never_aborts
      (aggregate bug_feature "other" (Text "Bug")) start bug_feature "Bug" _ _
      eq_refl eq_refl ltac:(done) eq_refl (conj eq_refl eq_refl)
      (surjective_pairing _))).
    reflexivity.
  - rewrite (proj1 (aggregate_run_never_aborts
      (aggregate bug_feature "other" (Text "outage")) start bug_feature
      "outage" _ _
      eq_refl eq_refl ltac:(done) eq_refl (conj eq_refl eq_refl)
      (surjective_pairing _))).
    reflexivity.
  - rewrite (proj1 (aggregate_run_never_aborts
      (templated_aggregate "Classify about {topic}" (Text "Bug")) start
      bug_feature "Bug" _ _
      eq_refl eq_refl ltac:(done) eq_refl (conj eq_refl eq_refl)
      (surjective_pairing _))).
    reflexivity.
Defined.

(** No category configured, and no input item to take categories from. *)
Lemma empty_category_set_is_fatal_witness :
  execute (batch true [] "other" [Text "Bug"]) start
  = (Throw (NodeOperationError "At least one category must be defined"), start)
  ∧ execute (aggregate [] "other" (Text "Bug")) start
    = (Throw (NodeOperationError "At least one category must be defined"),
       start).
Proof.
  split.
  - apply (empty_category_set_is_fatal (batch true [] "other" [Text "Bug"])).
    reflexivity.
  - apply (empty_category_set_is_fatal (aggregate [] "other" (Text "Bug"))).
    reflexivity.
Defined.



(** The scenarios of the routing contract: a defect report goes to branch 0
    only, a feature request to branch 1 only, and a text that names no
    category but the fallback goes to the trailing branch only. *)
Example scenario_single_branch :
  (execute
     (batch false bug_feature "other"
        [Text "Bug"; Text "Feature"; Text "fallback"]) start).1
  = Ok [[mkItem [("source", JString "inbox")] (Some 0)];
        [mkItem [("source", JString "inbox")] (Some 1)];
        [mkItem [("source", JString "inbox")] (Some 2)]].
Proof. reflexivity. Qed.

(** Under the policy [discard] an item no field is true for is dropped. *)
Example scenario_discard :
  (execute
     (batch false bug_feature "discard" [Text "Bug"; Text "weather"]) start).1
  = Ok [[mkItem [("source", JString "inbox")] (Some 0)]; []].
Proof. reflexivity. Qed.

(** With the fixing parser a rejected completion costs a second round trip. *)
Example scenario_repair_round_trip :
  count_events is_model_call
    (log (execute
            (mkHost [inbox_item] false bug_feature (λ _, Text "?")
               (mkOptions None None None (Some true)) true) start).2)
  = 2.
Proof. reflexivity. Qed.

(** A system prompt template with a stray closing brace is rejected when the
    prompt is built: even a failure-tolerant run raises, before the first
    item is looked at and without a call to the model. *)
Example scenario_template_rejected :
  execute (templated "Reply with }" true [Text "Bug"]) start
  = (Throw (ExternalError "Single '}' in template."),
     mkState 0
       [EvSchemaBuilt (build_schema bug_feature "other")] []).
Proof. reflexivity. Qed.

(** A system prompt template with a variable the chain has no value for is
    accepted when the prompt is built and fails when the prompt is
    formatted, inside the protected call: a failure-tolerant run records the
    error for the item, and the model is not called. *)
Example scenario_unbound_variable :
  let run := execute (templated "Classify about {topic}" true [Text "Bug"])
               start in
  run.1
  = Ok [[mkItem [("error", JString "Missing value for input variable topic")]
           (Some 0)]; []; []]
  ∧ count_events is_model_call (log run.2) = 0
  ∧ world run.2 = 0.
Proof. by split_and!. Qed.

(** A category named like a property of [Object.prototype] is read from the
    prototype when the answer has no field of its own for it: every
    classified item lands on its branch. *)
Example scenario_inherited_field :
  (execute
     (batch false [mkCategory "__proto__" "prototype"; mkCategory "Bug" "defect"]
        "discard" [Text "weather"]) start).1
  = Ok [[mkItem [("source", JString "inbox")] (Some 0)]; []].
Proof. reflexivity. Qed.

End examples.

(** * Further properties of the node *)

(** ** Categories taken from the input items *)

Lemma categories_from_items_ok (items : list INodeExecutionData) :
  ∀ idx cats,
    categories_from_items idx items = Ok cats →
    length cats = length items
    ∧ ∀ i item,
        items !! i = Some item →
        ∃ c, cats !! i = Some c
             ∧ Js.get "category" (json item) = Some (JString (category c))
             ∧ Js.get "description" (json item)
               = Some (JString (description c)).
Proof.
  induction items as [|item0 rest IH]; intros idx cats; simpl.
  - intros [= <-]. split; [done|]. intros i item Hi. done.
  - destruct (Js.get "category" (json item0)) as [[| | |c|]|] eqn:Hc;
      simpl; try done.
    destruct (Js.get "description" (json item0)) as [[| | |d|]|] eqn:Hd;
      simpl; try done.
    destruct (categories_from_items (S idx) rest) as [cats'|e] eqn:Hrest;
      [|done].
    intros [= <-]. destruct (IH _ _ Hrest) as [Hlen Hfields].
    split; [simpl; by rewrite Hlen|].
    intros [|i] item; simpl.
    + intros [= <-]. by exists (mkCategory c d).
    + apply Hfields.
Qed.

Lemma categories_from_items_valid (items : list INodeExecutionData) :
  ∀ idx,
    Forall valid_category_item items →
    ∃ cats, categories_from_items idx items = Ok cats.
Proof.
  induction items as [|item0 rest IH]; intros idx; simpl; [by eauto|].
  rewrite Forall_cons. intros [[[c Hc] [d Hd]] Hrest].
  rewrite Hc, Hd. destruct (IH (S idx) Hrest) as [cats ->]. by eauto.
Qed.

Lemma categories_from_items_invalid (items : list INodeExecutionData) :
  ∀ idx n item,
    items !! n = Some item →
    ¬ valid_category_item item →
    (∀ m item', m < n → items !! m = Some item' → valid_category_item item') →
    categories_from_items idx items = Throw (invalid_item_error (idx + n)).
Proof.
  induction items as [|item0 rest IH]; intros idx n item; [done|]. simpl.
  destruct n as [|n]; simpl.
  - intros [= ->] Hbad _. rewrite Nat.add_0_r.
    destruct (typeof_string (Js.get "category" (json item))) as [c|] eqn:Hc;
      [|done].
    destruct (typeof_string (Js.get "description" (json item))) as [d|]
      eqn:Hd; [|done].
    exfalso. apply Hbad. split; [by rewrite Hc|by rewrite Hd].
  - intros Hn Hbad Hbefore.
    destruct (Hbefore 0 item0) as [[c Hc] [d Hd]]; [lia|done|].
    rewrite Hc, Hd.
    rewrite (IH (S idx) n item Hn Hbad).
    + by rewrite Nat.add_succ_comm.
    + intros m item' Hm Hitem'. apply (Hbefore (S m)); [lia|done].
Qed.

Lemma categories_from_items_throw (items : list INodeExecutionData) :
  ∀ idx e,
    categories_from_items idx items = Throw e →
    ∃ n, n < length items ∧ e = invalid_item_error (idx + n).
Proof.
  induction items as [|item0 rest IH]; intros idx e; simpl; [done|].
  destruct (typeof_string (Js.get "category" (json item0))) as [c|];
    [|intros [= <-]; exists 0; rewrite Nat.add_0_r; split; [lia|done]].
  destruct (typeof_string (Js.get "description" (json item0))) as [d|];
    [|intros [= <-]; exists 0; rewrite Nat.add_0_r; split; [lia|done]].
  destruct (categories_from_items (S idx) rest) as [cats|e'] eqn:Hrest;
    [done|].
  intros [= <-]. destruct (IH _ _ Hrest) as (n & Hn & ->).
  exists (S n). split; [lia|]. by rewrite Nat.add_succ_comm.
Qed.

Section more_facts.
Context `{Collaborators World}.
Implicit Types (st : State (World := World)) (w : World).
Implicit Types (h : IExecuteFunctions) (cats : list Category).
Implicit Types (fb : string) (parser : Parser) (chain : Chain).
Implicit Types (item : INodeExecutionData) (items : list INodeExecutionData).
Implicit Types (output : list (string * bool)).

(** X1: in aggregate mode the category set is read off the input items: the
    resolution succeeds exactly when every item has a string [category] and
    a string [description], and it then yields one category per item, in
    item order, with those two strings. *)
Theorem aggregate_categories_mirror_items h :
  loadCategoriesFromInputItems h = true →
  ((∃ cats, resolve_categories h = Ok cats)
   ↔ Forall valid_category_item (getInputData h))
  ∧ ∀ cats,
      resolve_categories h = Ok cats →
      length cats = length (getInputData h)
      ∧ ∀ i item,
          getInputData h !! i = Some item →
          ∃ c, cats !! i = Some c
               ∧ Js.get "category" (json item) = Some (JString (category c))
               ∧ Js.get "description" (json item)
                 = Some (JString (description c)).
Proof.
  intros Hmode. unfold resolve_categories. rewrite Hmode. split.
  - split.
    + intros [cats Hcats]. apply Forall_lookup_2. intros i item Hitem.
      destruct (categories_from_items_ok _ _ _ Hcats) as [_ Hfields].
      destruct (Hfields i item Hitem) as (c & _ & Hc & Hd).
      split; [rewrite Hc|rewrite Hd]; by eexists.
    + apply categories_from_items_valid.
  - intros cats. apply categories_from_items_ok.
Qed.

(** X2: in aggregate mode the first input item without a string [category]
    or a string [description] aborts the run with an error whose message
    names that item's index; nothing has happened by then: the state is
    untouched, whatever the continue-on-fail setting. *)
Theorem aggregate_invalid_item_is_fatal h st n item :
  loadCategoriesFromInputItems h = true →
  getInputData h !! n = Some item →
  ¬ valid_category_item item →
  (∀ m item', m < n → getInputData h !! m = Some item' →
              valid_category_item item') →
  execute h st
  = (Throw (NodeOperationError
              ("Input item " +:+ pretty n
               +:+ " is missing a valid 'category' or 'description' field.")),
     st).
Proof.
  intros Hmode Hn Hbad Hbefore. unfold execute. rewrite Hmode.
  unfold execute_aggregate, mbind, M_bind, lift.
  by rewrite (categories_from_items_invalid _ 0 n item Hn Hbad Hbefore).
Qed.

Lemma execute_aggregate_cases h st :
  execute_aggregate h st
  = match categories_from_items 0 (getInputData h) with
    | Throw e => (Throw e, st)
    | Ok cats =>
        if decide (length cats = 0)
        then (Throw (NodeOperationError
                       "At least one category must be defined"), st)
        else
          match inputText_param h 0 with
          | Text input =>
              match build_prompt
                      (default SYSTEM_PROMPT_TEMPLATE
                         (systemPromptTemplate (options_param h)))
                      (default false (multiClass (options_param h)))
                      (fallback_of h) with
              | Throw e =>
                  (Throw e,
                   mkState (world st)
                     (log st
                      ++ [EvSchemaBuilt (build_schema cats (fallback_of h))])
                     (returnData st))
              | Ok _ =>
                  match chain_invoke (chain_of h cats)
                          (chain_input cats (parser_of h cats) input)
                          (mkState (world st)
                             (log st ++ setup_events h cats)
                             (returnData st)) with
                  | (Ok output, st') =>
                      (Ok [[answer_item output input]], st')
                  | (Throw e, st') =>
                      (Ok [[error_item (message e) None]], st')
                  end
              end
          | _ => (Throw (NodeOperationError
                           "Text to classify is not defined"), st)
          end
    end.
Proof.
  unfold execute_aggregate, mbind, M_bind, lift.
  destruct (categories_from_items 0 (getInputData h)) as [cats|e]; [|done].
  case_decide; [done|].
  destruct (inputText_param h 0) as [| |input]; [done|done|].
  destruct (build_prompt_cases h) as [[Hacc Hb]|(e & Hb & _)]; rewrite Hb.
  - rewrite setup_spec by done.
    unfold try_catch, mbind, M_bind, setup_events.
    by destruct (chain_invoke _ _ _) as [[output|e] st'].
  - by rewrite (setup_rejected _ _ _ _ Hb).
Qed.

(** X3: an aggregate run can only abort before the chain is invoked, and
    never on an error of the model or of the parser.  Whenever it raises,
    no model call has been made and the error is one of four.  Three are the
    node's own and leave the state untouched: an invalid input item, an
    empty category set, an undefined text.  The fourth is the rejection of a
    prompt template by the template library, raised when the prompt is
    built, after the schema. *)
Theorem aggregate_aborts_only_before_the_chain h st e st' :
  loadCategoriesFromInputItems h = true →
  execute h st = (Throw e, st') →
  world st' = world st
  ∧ returnData st' = returnData st
  ∧ ((st' = st
      ∧ ((∃ n, n < length (getInputData h) ∧ e = invalid_item_error n)
         ∨ (getInputData h = []
            ∧ e = NodeOperationError "At least one category must be defined")
         ∨ ((inputText_param h 0 = Undefined ∨ inputText_param h 0 = Null)
            ∧ e = NodeOperationError "Text to classify is not defined")))
     ∨ (∃ cats,
          categories_from_items 0 (getInputData h) = Ok cats
          ∧ log st'
            = log st ++ [EvSchemaBuilt (build_schema cats (fallback_of h))]
          ∧ (template_error (system_template_of h) = Some e
             ∨ (template_error (system_template_of h) = None
                ∧ template_error "{inputText}" = Some e)))).
Proof.
  intros Hmode. unfold execute. rewrite Hmode, execute_aggregate_cases.
  destruct (categories_from_items 0 (getInputData h)) as [cats|e0] eqn:Hcats.
  - case_decide as Hlen.
    + intros [= <- <-]. split; [done|]. split; [done|]. left.
      split; [done|]. right. left. split; [|done].
      destruct (categories_from_items_ok _ _ _ Hcats) as [Hl _].
      rewrite Hlen in Hl. by destruct (getInputData h).
    + destruct (inputText_param h 0) as [| |input] eqn:Htext.
      * intros [= <- <-]. split; [done|]. split; [done|]. left.
        split; [done|]. right. right. by split; [left|].
      * intros [= <- <-]. split; [done|]. split; [done|]. left.
        split; [done|]. right. right. by split; [right|].
      * destruct (build_prompt_cases h) as [[Hacc Hb]|(e1 & Hb & Hwhy)];
          rewrite Hb.
        -- by destruct (chain_invoke _ _ _) as [[output|e1] st1].
        -- intros [= <- <-]. split; [done|]. split; [done|]. right.
           by exists cats.
  - intros [= <- <-]. split; [done|]. split; [done|]. left. split; [done|].
    left. by apply (categories_from_items_throw _ 0).
Qed.

End more_facts.

(** ** The invocations of the chain and the calls made to the model *)

Section model_calls.
Context `{Collaborators World}.
Implicit Types (st : State (World := World)) (w : World).
Implicit Types (h : IExecuteFunctions) (cats : list Category).
Implicit Types (fb : string) (parser : Parser) (chain : Chain).
Implicit Types (item : INodeExecutionData) (items : list INodeExecutionData).

Lemma structured_parser_of h cats :
  enableAutoFixing (options_param h) ≠ Some true →
  ∃ schema, chain_parser (chain_of h cats) = StructuredOutputParser schema.
Proof.
  intros Hfix. unfold chain_of, parser_of, make_parser. simpl.
  destruct (enableAutoFixing (options_param h)) as [[|]|]; by eauto.
Qed.

Lemma item_outcome_structured_events h cats parser chain schema i w o w' evs :
  chain_parser chain = StructuredOutputParser schema →
  item_outcome h cats parser chain i w = (o, w', evs) →
  evs = match inputText_param h i with
        | Text input => chain_trace chain (chain_input cats parser input)
        | _ => []
        end.
Proof.
  intros Hp. unfold item_outcome.
  destruct (inputText_param h i) as [| |input].
  1,2: by intros [= _ _ <-].
  pose proof (classify_structured_events chain
    (chain_input cats parser input) w schema Hp) as Hev.
  destruct (classify chain _ w) as [[[output|e] w1] evs1]; simpl in Hev;
    by intros [= _ _ <-].
Qed.





Lemma process_items_abort_calls h cats fb parser chain schema items :
  ∀ i st n o,
    chain_parser chain = StructuredOutputParser schema →
    well_sized cats fb (returnData st) →
    cats ≠ [] →
    continueOnFail h = false →
    (outcomes h cats parser chain i items (world st)).*1 !! n = Some o →
    is_classified o = false →
    (∀ m o', m < n →
       (outcomes h cats parser chain i items (world st)).*1 !! m = Some o' →
       is_classified o' = true) →
    ∃ e st',
      process_items h cats fb parser chain i items st = (Throw e, st')
      ∧ abort_error (i + n) o = Some e
      ∧ log st'
        = log st ++ run_trace h cats parser chain i (take (S n) items).
Proof.
  induction items as [|item rest IH]; intros i st n o Hp Hlen Hne Hmode;
    [done|].
  cbn [outcomes].
  destruct (item_outcome h cats parser chain i (world st))
    as [[o1 w1] evs] eqn:Ho.
  pose proof (item_outcome_structured_events _ _ _ _ _ _ _ _ _ _ Hp Ho)
    as Hevs.
  intros Hn Hfail Hbefore. cbn [process_items]. unfold mbind, M_bind.
  destruct n as [|n]; simpl in Hn.
  - injection Hn as ->.
    assert (∃ e, abort_error i o = Some e) as [e He]
      by (destruct o; [by eexists|by eexists|done]).
    rewrite (process_item_abort _ _ _ _ _ _ _ _ _ _ _ _ Ho Hmode He).
    exists e, (mkState w1 (log st ++ evs) (returnData st)).
    split; [done|]. split; [by rewrite Nat.add_0_r|]. simpl.
    rewrite app_nil_r. by rewrite Hevs.
  - rewrite (process_item_ok _ _ _ _ _ _ _ _ _ _ _ Hlen Hne Ho).
    2: { right. apply (Hbefore 0); [lia|done]. }
    set (st1 := mkState w1 _ _).
    destruct (IH (S i) st1 n o) as (e & st' & Hrun & He & Hlog);
      [exact Hp| |exact Hne|exact Hmode|exact Hn|exact Hfail| |].
    + unfold well_sized in *. simpl. by rewrite append_to_length.
    + intros m o' Hm Hm'. apply (Hbefore (S m)); [lia|done].
    + exists e, st'. split; [exact Hrun|].
      split; [by rewrite <- Nat.add_succ_comm|].
      rewrite Hlog. simpl. rewrite <- app_assoc. by rewrite Hevs.
Qed.

(** X5: when failures are not tolerated, the first failing item stops the
    loop.  Without the fixing parser, and the prompt templates being
    accepted, the chain has then been invoked for the items up to the
    failing one whose text is defined (those before it were classified,
    their routing is lost with the run) and for none after it. *)
Theorem intolerant_run_stops_at_first_failure h st n :
  loadCategoriesFromInputItems h = false →
  continueOnFail h = false →
  categories_param h ≠ [] →
  templates_accepted h →
  enableAutoFixing (options_param h) ≠ Some true →
  first_failure (run_outcomes h (world st)) n →
  ∃ e st',
    execute h st = (Throw e, st')
    ∧ log st'
      = log st ++ setup_events h (categories_param h)
        ++ run_trace h (categories_param h)
             (parser_of h (categories_param h))
             (chain_of h (categories_param h)) 0
             (take (S n) (getInputData h)).
Proof.
  intros Hmode Htol Hne Hacc Hfix [(o & Ho & Hfail) Hbefore].
  unfold execute, execute_per_item. rewrite Hmode.
  rewrite decide_False by (by destruct (categories_param h)).
  unfold mbind, M_bind. rewrite setup_spec by done.
  unfold set_returnData. simpl.
  destruct (structured_parser_of h (categories_param h) Hfix) as [s Hs].
  set (st1 := mkState _ _ _).
  destruct (process_items_abort_calls h (categories_param h) (fallback_of h)
              (parser_of h (categories_param h))
              (chain_of h (categories_param h)) s (getInputData h) 0 st1 n o)
    as (e & st' & -> & _ & Hlog); try done.
  - apply new_returnData_well_sized.
  - exists e, st'. split; [done|]. rewrite Hlog. simpl.
    by rewrite <- app_assoc.
Qed.


End model_calls.

(** ** What the branches of a per-item run hold *)

Lemma first_failure_exists (os : list Outcome) :
  Forall (λ o, is_classified o = true) os ∨ ∃ n, first_failure os n.
Proof.
  induction os as [|o os IH]; [by left|].
  destruct (is_classified o) eqn:Ho.
  - destruct IH as [Hall|[n [(o' & Hn & Hfail) Hbefore]]].
    + left. by constructor.
    + right. exists (S n). split; [by exists o'|].
      intros [|m] o'' Hm; simpl.
      * by intros [= <-].
      * apply Hbefore. lia.
  - right. exists 0. split; [by exists o|]. intros m o' Hm. lia.
Qed.

Section branches.
Context `{Collaborators World}.
Implicit Types (st : State (World := World)) (w : World).
Implicit Types (h : IExecuteFunctions) (cats : list Category).
Implicit Types (fb : string) (parser : Parser) (chain : Chain).
Implicit Types (item : INodeExecutionData) (items : list INodeExecutionData).
Implicit Types (output : list (string * bool)).

Lemma execute_per_item_rejected h st e :
  categories_param h ≠ [] →
  build_prompt
    (default SYSTEM_PROMPT_TEMPLATE (systemPromptTemplate (options_param h)))
    (default false (multiClass (options_param h))) (fallback_of h)
  = Throw e →
  execute_per_item h st
  = (Throw e,
     mkState (world st)
       (log st
        ++ [EvSchemaBuilt (build_schema (categories_param h) (fallback_of h))])
       (returnData st)).
Proof.
  intros Hne Hb. unfold execute_per_item.
  rewrite decide_False by (by destruct (categories_param h)).
  unfold mbind, M_bind. by rewrite (setup_rejected _ _ _ _ Hb).
Qed.

Lemma execute_per_item_abort h st n o err :
  categories_param h ≠ [] →
  templates_accepted h →
  continueOnFail h = false →
  run_outcomes h (world st) !! n = Some o →
  (∀ m o', m < n → run_outcomes h (world st) !! m = Some o' →
           is_classified o' = true) →
  abort_error n o = Some err →
  ∃ st', execute_per_item h st = (Throw err, st').
Proof.
  intros Hne Hacc Htol Ho Hbefore Herr. unfold execute_per_item.
  rewrite decide_False by (by destruct (categories_param h)).
  unfold mbind, M_bind. rewrite setup_spec by done.
  unfold set_returnData. simpl.
  set (st1 := mkState _ _ _).
  destruct (process_items_abort h (categories_param h) (fallback_of h)
              (parser_of h (categories_param h))
              (chain_of h (categories_param h)) (getInputData h) 0 st1 n o
              err) as [st' ->]; try done.
  - apply new_returnData_well_sized.
  - by exists st'.
Qed.

(** What a per-item run that returns has been through, and what it holds. *)
Lemma per_item_run_returned h st rd st' :
  loadCategoriesFromInputItems h = false →
  execute h st = (Ok rd, st') →
  categories_param h ≠ []
  ∧ templates_accepted h
  ∧ (continueOnFail h = true
     ∨ Forall (λ o, is_classified o = true) (run_outcomes h (world st)))
  ∧ length rd
    = length (categories_param h)
      + (if decide (fallback_of h = "other") then 1 else 0)
  ∧ ∀ j branch,
      rd !! j = Some branch →
      branch
      = collect (categories_param h) (fallback_of h) j 0 (getInputData h)
          (run_outcomes h (world st)).
Proof.
  intros Hmode. unfold execute. rewrite Hmode. intros Hrun.
  assert (Hne : categories_param h ≠ []).
  { intros Hnil. unfold execute_per_item in Hrun. by rewrite Hnil in Hrun. }
  assert (Hacc : templates_accepted h).
  { destruct (build_prompt_cases h) as [[Hacc _]|(e & Hb & _)]; [done|].
    by rewrite (execute_per_item_rejected _ _ _ Hne Hb) in Hrun. }
  assert (Hok : continueOnFail h = true
                ∨ Forall (λ o, is_classified o = true)
                    (run_outcomes h (world st))).
  { destruct (continueOnFail h) eqn:Htol; [by left|right].
    destruct (first_failure_exists (run_outcomes h (world st)))
      as [Hall|[n [(o & Ho & Hfail) Hbefore]]]; [done|].
    assert (∃ err, abort_error n o = Some err) as [err Herr]
      by (destruct o; [by eexists|by eexists|done]).
    destruct (execute_per_item_abort h st n o err Hne Hacc Htol Ho Hbefore
                Herr) as [st'' Habort].
    by rewrite Habort in Hrun. }
  split; [done|]. split; [done|]. split; [done|].
  destruct (execute_per_item_ok h st Hne Hacc Hok) as [w' Hrun'].
  cbv zeta in Hrun'. rewrite Hrun' in Hrun. injection Hrun as <- _.
  split.
  - rewrite append_to_length. apply new_returnData_well_sized.
  - intros j branch. rewrite append_to_lookup. unfold new_returnData.
    destruct (replicate _ _ !! j) as [b|] eqn:Hb; [|done].
    apply lookup_replicate in Hb as [-> _]. by intros [= <-].
Qed.

Lemma deliveries_at_most_one cats fb output item j :
  deliveries cats fb output item j = []
  ∨ deliveries cats fb output item j = [item].
Proof.
  unfold deliveries, category_hit, fallback_hit.
  destruct (cats !! j) as [cat|] eqn:Hcat.
  - rewrite (bool_decide_eq_false_2 (j = length cats))
      by (apply lookup_lt_Some in Hcat; lia).
    rewrite andb_false_r, app_nil_r.
    destruct (field_true _ _); by eauto.
  - simpl. destruct (_ && _); by eauto.
Qed.

Lemma contribution_at_most_one cats fb i item o j :
  contribution cats fb i item o j = []
  ∨ ∃ x, contribution cats fb i item o j = [x] ∧ pairedItem x = Some i.
Proof.
  destruct o as [|e|output]; simpl.
  1,2: case_decide; [right; by eexists|by left].
  destruct (deliveries_at_most_one cats fb output
              (mkItem (json item) (Some i)) j) as [->| ->];
    [by left|right; by eexists].
Qed.

Lemma collect_origins cats fb j items : ∀ i os,
  ∃ ks,
    pairedItem <$> collect cats fb j i items os = Some <$> ks
    ∧ StronglySorted lt ks
    ∧ Forall (λ k, i ≤ k < i + length items) ks.
Proof.
  induction items as [|item rest IH]; intros i os.
  - exists []. by repeat constructor.
  - destruct os as [|o os]; [exists []; by repeat constructor|].
    cbn [collect]. destruct (IH (S i) os) as (ks & Hks & Hsorted & Hbound).
    destruct (contribution_at_most_one cats fb i item o j)
      as [->|(x & -> & Hx)].
    + exists ks. split; [done|]. split; [done|].
      eapply Forall_impl; [exact Hbound|]. simpl. intros k ?. lia.
    + exists (i :: ks).
      split; [rewrite fmap_app, Hks; simpl; by rewrite Hx|]. split.
      * constructor; [done|].
        eapply Forall_impl; [exact Hbound|]. simpl. intros k ?. lia.
      * constructor; [simpl; lia|].
        eapply Forall_impl; [exact Hbound|]. simpl. intros k ?. lia.
Qed.

(** X7: every branch a per-item run returns lists its entries in input
    order: the origins of the entries of a branch are strictly increasing
    item indices.  So a branch never holds two entries of the same input
    item, and routing never reorders items. *)
Theorem branches_keep_input_order h st rd st' :
  loadCategoriesFromInputItems h = false →
  execute h st = (Ok rd, st') →
  ∀ j branch,
    rd !! j = Some branch →
    ∃ origins,
      pairedItem <$> branch = Some <$> origins
      ∧ StronglySorted lt origins
      ∧ Forall (λ k, k < length (getInputData h)) origins.
Proof.
  intros Hmode Hrun j branch Hj.
  destruct (per_item_run_returned h st rd st' Hmode Hrun)
    as (_ & _ & _ & _ & Hbranches).
  rewrite (Hbranches j branch Hj).
  destruct (collect_origins (categories_param h) (fallback_of h) j
              (getInputData h) 0 (run_outcomes h (world st)))
    as (ks & Hks & Hsorted & Hbound).
  exists ks. split; [done|]. split; [done|].
  eapply Forall_impl; [exact Hbound|]. simpl. intros k ?. lia.
Qed.

(** X8: every entry of a branch a per-item run returns comes from an input
    item.  It is either a classified item with its payload unchanged and its
    own index as origin, or the error record of an item that failed, which
    only a failure-tolerant run holds; error records are found on branch 0
    only. *)
Theorem branch_entries_come_from_items h st rd st' :
  loadCategoriesFromInputItems h = false →
  execute h st = (Ok rd, st') →
  ∀ j branch x,
    rd !! j = Some branch →
    x ∈ branch →
    (∃ i item output,
       getInputData h !! i = Some item
       ∧ run_outcomes h (world st) !! i = Some (Classified output)
       ∧ x = mkItem (json item) (Some i))
    ∨ (j = 0
       ∧ continueOnFail h = true
       ∧ ∃ i o msg,
           run_outcomes h (world st) !! i = Some o
           ∧ failure_message o = Some msg
           ∧ x = mkItem [("error", JString msg)] (Some i)).
Proof.
  intros Hmode Hrun j branch x Hj Hx.
  destruct (per_item_run_returned h st rd st' Hmode Hrun)
    as (_ & _ & Hok & _ & Hbranches).
  rewrite (Hbranches j branch Hj) in Hx.
  apply collect_elem_inv in Hx as (n & item & o & Hitem & Ho & Hx).
  assert (Htol : is_classified o = false → continueOnFail h = true).
  { intros Hfail. destruct Hok as [Htol|Hall]; [done|].
    rewrite Forall_lookup in Hall. apply Hall in Ho. congruence. }
  simpl in Hx. destruct o as [|e|output]; simpl in Hx.
  - right. destruct (decide (j = 0)); [|by apply elem_of_nil in Hx].
    apply list_elem_of_singleton in Hx. split; [done|].
    split; [by apply Htol|].
    by exists n, MissingText, "Text to classify is not defined".
  - right. destruct (decide (j = 0)); [|by apply elem_of_nil in Hx].
    apply list_elem_of_singleton in Hx. split; [done|].
    split; [by apply Htol|].
    by exists n, (Failed e), (message e).
  - left. apply deliveries_elem in Hx as [-> _].
    by exists n, item, output.
Qed.

(** X9: an item whose answer has no true field is dropped: when the
    classification succeeds, the field of every category is false in the
    answer (or absent from it, the name not being one of
    [Object.prototype]), and under the policy [other] the [fallback] field
    is not true, the loop body leaves every branch as it was.  The fallback
    branch is fed by the model's [fallback] field alone, not by the absence
    of a match. *)
Theorem unmatched_item_is_dropped
    h cats fb parser chain i item st input output st1 :
  well_sized cats fb (returnData st) →
  cats ≠ [] →
  inputText_param h i = Text input →
  chain_invoke chain (chain_input cats parser input) st = (Ok output, st1) →
  (∀ cat, cat ∈ cats →
     Js.get (category cat) output = Some false
     ∨ (Js.get (category cat) output = None
        ∧ category cat ∉ Js.prototype_keys)) →
  (fb = "other" → Js.get "fallback" output ≠ Some true) →
  ∃ st',
    process_item h cats fb parser chain i item st = (Ok (), st')
    ∧ returnData st' = returnData st.
Proof.
  intros Hlen Hne Htext Hchain Hcats Hfb.
  eexists. split; [by eapply process_item_classified|]. simpl.
  apply append_to_nothing. intros j _.
  destruct (deliveries cats fb output (mkItem (json item) (Some i)) j)
    as [|x l] eqn:Hd; [done|].
  assert (Hx : x ∈ deliveries cats fb output (mkItem (json item) (Some i)) j)
    by (rewrite Hd; apply list_elem_of_here).
  apply deliveries_elem in Hx
    as [_ [(cat & Hcat & Hhit)|(Hother & _ & Hhit)]].
  - apply list_elem_of_lookup_2 in Hcat.
    destruct (Hcats cat Hcat) as [Hfalse|[Hnone Hproto]];
      destruct Hhit as [Htrue|[Hnone' Hproto']]; congruence.
  - by destruct (Hfb Hother).
Qed.

End branches.

(** ** Repeated names, aborts and declared outputs *)

(** X10: when several categories bear the same name, the schema field of
    that name carries the description of the last of them: the text the
    model is given for the field is built from the last category so named.
    (Under the policy [other] the name [fallback] is excepted, its field
    being the synthetic one.) *)
Theorem last_description_wins
    (before after : list Category) (c : Category) (fb : string) :
  category c ∉ category <$> after →
  (fb = "other" → category c ≠ "fallback") →
  Js.get (category c) (shape (build_schema (before ++ c :: after) fb))
  = Some (mkZodBoolean
            ("Should be true if the input has category " +:+ dq
             +:+ category c +:+ dq +:+ " (description: " +:+ description c
             +:+ ")")).
Proof. apply schema_last_description. Qed.

Section aborts.
Context `{Collaborators World}.
Implicit Types (st : State (World := World)) (w : World).
Implicit Types (h : IExecuteFunctions) (cats : list Category).

(** X11: a per-item run raises for three reasons only.  No category is
    configured, and then nothing has happened.  Or the template library
    rejects a prompt template when the prompt is built, and then the schema
    has been built, no item has been looked at and the model has not been
    asked, whatever the continue-on-fail setting.  Or failures are not
    tolerated and an item failed, and then the error is the one of the first
    failing item: the node's missing-text error, or the error the chain
    raised.  A failure-tolerant run with categories and accepted templates
    never raises, and the writes to the branches never do. *)
Theorem per_item_run_raises_for_three_reasons h st e st' :
  loadCategoriesFromInputItems h = false →
  execute h st = (Throw e, st') →
  (categories_param h = []
   ∧ st' = st
   ∧ e = NodeOperationError "At least one category must be defined")
  ∨ (categories_param h ≠ []
     ∧ world st' = world st
     ∧ returnData st' = returnData st
     ∧ log st'
       = log st
         ++ [EvSchemaBuilt
               (build_schema (categories_param h) (fallback_of h))]
     ∧ (template_error (system_template_of h) = Some e
        ∨ (template_error (system_template_of h) = None
           ∧ template_error "{inputText}" = Some e)))
  ∨ (categories_param h ≠ []
     ∧ templates_accepted h
     ∧ continueOnFail h = false
     ∧ ∃ n o,
         first_failure (run_outcomes h (world st)) n
         ∧ run_outcomes h (world st) !! n = Some o
         ∧ abort_error n o = Some e).
Proof.
  intros Hmode. unfold execute. rewrite Hmode.
  destruct (decide (categories_param h = [])) as [Hnil|Hne].
  - unfold execute_per_item. rewrite Hnil. simpl.
    intros [= <- <-]. by left.
  - intros Hrun. right.
    destruct (build_prompt_cases h) as [[Hacc _]|(e1 & Hb & Hwhy)].
    2: { left. rewrite (execute_per_item_rejected _ _ _ Hne Hb) in Hrun.
         by injection Hrun as <- <-. }
    right. split; [done|]. split; [done|].
    destruct (continueOnFail h) eqn:Htol.
    { destruct (execute_per_item_ok h st Hne Hacc (or_introl Htol))
        as [w' Hok].
      cbv zeta in Hok. by rewrite Hok in Hrun. }
    split; [done|].
    destruct (first_failure_exists (run_outcomes h (world st)))
      as [Hall|[n Hfirst]].
    { destruct (execute_per_item_ok h st Hne Hacc (or_intror Hall))
        as [w' Hok].
      cbv zeta in Hok. by rewrite Hok in Hrun. }
    destruct Hfirst as [(o & Ho & Hfail) Hbefore].
    assert (∃ err, abort_error n o = Some err) as [err Herr]
      by (destruct o; [by eexists|by eexists|done]).
    destruct (execute_per_item_abort h st n o err Hne Hacc Htol Ho Hbefore
                Herr) as [st'' Habort].
    rewrite Habort in Hrun. injection Hrun as -> _.
    exists n, o. split; [|done]. split; [by exists o|done].
Qed.

(** X12: whatever a run returns matches the outputs declared from the
    parameters: in both modes and under either continue-on-fail setting, a
    run that returns gives as many branches as [configuredOutputs] lists
    outputs. *)
Theorem returned_branches_match_declared_outputs h st rd st' :
  execute h st = (Ok rd, st') →
  length rd = length (configuredOutputs h).
Proof.
  destruct (loadCategoriesFromInputItems h) eqn:Hmode.
  - unfold execute, configuredOutputs. rewrite Hmode.
    rewrite execute_aggregate_cases.
    destruct (categories_from_items 0 (getInputData h)) as [cats|e0];
      [|done].
    case_decide; [done|].
    destruct (inputText_param h 0) as [| |input]; [done|done|].
    destruct (build_prompt _ _ _); [|done].
    destruct (chain_invoke _ _ _) as [[output|e1] st1]; by intros [= <- _].
  - intros Hrun.
    destruct (per_item_run_returned h st rd st' Hmode Hrun)
      as (_ & _ & _ & -> & _).
    unfold configuredOutputs, fallback_of. rewrite Hmode.
    destruct (fallback (options_param h)) as [fb|]; simpl.
    + destruct (decide (fb = "other")) as [->|Hfb].
      * rewrite decide_True by done.
        rewrite length_app, length_fmap. done.
      * rewrite decide_False by congruence.
        rewrite length_fmap. lia.
    + rewrite length_fmap. lia.
Qed.

Lemma outcomes_with_continueOnFail b h cats parser chain items : ∀ i w,
  outcomes (with_continueOnFail b h) cats parser chain i items w
  = outcomes h cats parser chain i items w.
Proof.
  induction items as [|item rest IH]; intros i w; [done|].
  cbn [outcomes].
  change (item_outcome (with_continueOnFail b h) cats parser chain i w)
    with (item_outcome h cats parser chain i w).
  destruct (item_outcome h cats parser chain i w) as [[o w1] evs].
  by rewrite IH.
Qed.

(** X13: the continue-on-fail setting matters only when an item fails: in
    per-item mode, when every item is classified, a run has the same result
    with the setting on and with it off.  With categories and accepted
    prompt templates this result is the branches; otherwise it is the error
    raised before the loop. *)
Theorem continueOnFail_is_idle_without_failures h st b :
  loadCategoriesFromInputItems h = false →
  Forall (λ o, is_classified o = true) (run_outcomes h (world st)) →
  (execute (with_continueOnFail b h) st).1 = (execute h st).1
  ∧ (categories_param h ≠ [] →
     templates_accepted h →
     ∃ rd, (execute h st).1 = Ok rd).
Proof.
  intros Hmode Hall.
  assert (Hsame : run_outcomes (with_continueOnFail b h) (world st)
                  = run_outcomes h (world st)).
  { unfold run_outcomes. simpl.
    change (parser_of (with_continueOnFail b h)) with (parser_of h).
    change (chain_of (with_continueOnFail b h)) with (chain_of h).
    by rewrite outcomes_with_continueOnFail. }
  assert (Hok : categories_param h ≠ [] → templates_accepted h →
                ∃ rd, (execute h st).1 = Ok rd
                      ∧ (execute (with_continueOnFail b h) st).1 = Ok rd).
  { intros Hne Hacc. unfold execute. simpl. rewrite Hmode.
    destruct (execute_per_item_ok h st Hne Hacc (or_intror Hall))
      as [w1 Hrun].
    destruct (execute_per_item_ok (with_continueOnFail b h) st Hne Hacc)
      as [w2 Hrun'].
    { right. by rewrite Hsame. }
    cbv zeta in Hrun, Hrun'. rewrite Hrun, Hrun'. simpl.
    eexists. split; [done|].
    change (fallback_of (with_continueOnFail b h)) with (fallback_of h).
    change (parser_of (with_continueOnFail b h)) with (parser_of h).
    change (chain_of (with_continueOnFail b h)) with (chain_of h).
    by rewrite outcomes_with_continueOnFail. }
  split.
  - destruct (decide (categories_param h = [])) as [Hnil|Hne].
    { unfold execute, execute_per_item. simpl. rewrite Hmode.
      by rewrite Hnil. }
    destruct (build_prompt_cases h) as [[Hacc _]|(e & Hb & _)].
    + destruct (Hok Hne Hacc) as (rd & -> & ->). done.
    + unfold execute. simpl. rewrite Hmode.
      rewrite (execute_per_item_rejected h st e Hne Hb).
      by rewrite (execute_per_item_rejected (with_continueOnFail b h) st e
                    Hne Hb).
  - intros Hne Hacc. destruct (Hok Hne Hacc) as (rd & Hrd & _). by exists rd.
Qed.

End aborts.

(** ** The messages of the node's own errors *)

Lemma list_ascii_of_string_app (a b : string) :
  list_ascii_of_string (a +:+ b)
  = list_ascii_of_string a ++ list_ascii_of_string b.
Proof. induction a as [|c a IH]; simpl; [done|]. by rewrite IH. Qed.

Lemma string_app_inv_tail (a b t : string) : a +:+ t = b +:+ t → a = b.
Proof.
  intros Heq. apply (f_equal list_ascii_of_string) in Heq.
  rewrite !list_ascii_of_string_app in Heq. apply app_inv_tail in Heq.
  apply (f_equal string_of_list_ascii) in Heq.
  by rewrite !string_of_list_ascii_of_string in Heq.
Qed.

Lemma missing_text_error_inj (n m : nat) :
  "Text to classify for item " +:+ pretty n +:+ " is not defined"
  = "Text to classify for item " +:+ pretty m +:+ " is not defined" →
  n = m.
Proof.
  intros Heq. apply String.app_inj in Heq.
  apply string_app_inv_tail in Heq. by apply (inj pretty).
Qed.

Lemma invalid_item_error_inj (n m : nat) :
  invalid_item_error n = invalid_item_error m → n = m.
Proof.
  intros [= Heq]. apply String.app_inj in Heq.
  apply string_app_inv_tail in Heq. by apply (inj pretty).
Qed.

Section item_errors.
Context `{Collaborators World}.
Implicit Types (st : State (World := World)) (w : World).
Implicit Types (h : IExecuteFunctions) (cats : list Category).
Implicit Types (fb : string) (parser : Parser) (chain : Chain).
Implicit Types (item : INodeExecutionData) (items : list INodeExecutionData).

(** X14: the node's own item errors name one item each.  When failures are
    not tolerated, the loop body raises on an item without text, and the
    errors it raises on two such items are equal only when the items have
    the same index; and two aggregate resolutions that stop at an invalid
    input item raise equal errors exactly when they stop at the same
    index. *)
Theorem item_errors_name_one_item
    h cats fb parser chain item item' st1 st2 n m items items' i j :
  continueOnFail h = false →
  inputText_param h n = Undefined ∨ inputText_param h n = Null →
  inputText_param h m = Undefined ∨ inputText_param h m = Null →
  first_invalid items i →
  first_invalid items' j →
  (∃ e, (process_item h cats fb parser chain n item st1).1 = Throw e)
  ∧ ((process_item h cats fb parser chain n item st1).1
     = (process_item h cats fb parser chain m item' st2).1
     ↔ n = m)
  ∧ (∃ e, categories_from_items 0 items = Throw e)
  ∧ (categories_from_items 0 items = categories_from_items 0 items'
     ↔ i = j).
Proof.
  intros Htol Hn Hm [(bad & Hi & Hbad) Hbefore] [(bad' & Hj & Hbad') Hbefore'].
  assert (Hrun : ∀ k item0 st,
            inputText_param h k = Undefined ∨ inputText_param h k = Null →
            (process_item h cats fb parser chain k item0 st).1
            = Throw (NodeOperationError
                       ("Text to classify for item " +:+ pretty k
                        +:+ " is not defined"))).
  { intros k item0 st Hk. unfold process_item.
    destruct Hk as [-> | ->]; by rewrite Htol. }
  rewrite (Hrun n item st1 Hn), (Hrun m item' st2 Hm).
  rewrite (categories_from_items_invalid items 0 i bad Hi Hbad Hbefore).
  rewrite (categories_from_items_invalid items' 0 j bad' Hj Hbad' Hbefore').
  rewrite !Nat.add_0_l.
  split_and!.
  - by eexists.
  - split; [|by intros ->].
    intros Heq. apply missing_text_error_inj. congruence.
  - by eexists.
  - split; [|by intros ->].
    intros Heq. apply invalid_item_error_inj. congruence.
Qed.

End item_errors.

(** ** The further properties on concrete batches *)

Section more_examples.
Import Script.
Local Existing Instance collaborators.

(** Two valid input items give the two categories. *)
Lemma aggregate_categories_mirror_items_witness :
  ∃ cats,
    resolve_categories (aggregate bug_feature "other" (Text "Bug")) = Ok cats
    ∧ length cats = 2.
Proof.
  destruct (aggregate_categories_mirror_items
              (aggregate bug_feature "other" (Text "Bug")) eq_refl)
    as [[_ Hvalid] Hfields].
  destruct Hvalid as [cats Hcats].
  - repeat constructor; by eexists.
  - exists cats. split; [done|]. by destruct (Hfields cats Hcats) as [-> _].
Defined.

(** The second input item has a number for its category. *)
Lemma aggregate_invalid_item_is_fatal_witness :
  execute
    (mkHost
       [mkItem [("category", JString "Bug"); ("description", JString "d")]
          None;
        mkItem [("category", JNumber 7); ("description", JString "d")] None]
       true [] (λ _, Text "Bug") (options "other") true)
    start
  = (Throw (NodeOperationError
              "Input item 1 is missing a valid 'category' or 'description' field."),
     start).
Proof.
  apply (aggregate_invalid_item_is_fatal _ start 1
           (mkItem [("category", JNumber 7); ("description", JString "d")]
              None)).
  - reflexivity.
  - reflexivity.
  - intros [[c Hc] _]. discriminate Hc.
  - intros m item' Hm Hitem. destruct m as [|m]; [|lia].
    injection Hitem as <-. split; by eexists.
Defined.

(** An aggregate run whose template is rejected has built the schema and
    nothing else; one whose text is [null] has done nothing. *)
Lemma aggregate_aborts_only_before_the_chain_witness :
  (∃ cats,
     log (execute (templated_aggregate "Reply with }" (Text "Bug")) start).2
     = log start ++ [EvSchemaBuilt (build_schema cats "other")])
  ∧ (execute (aggregate bug_feature "other" Null) start).2 = start.
Proof.
  split.
  - destruct (aggregate_aborts_only_before_the_chain
                (templated_aggregate "Reply with }" (Text "Bug")) start
                (ExternalError "Single '}' in template.")
                (execute (templated_aggregate "Reply with }" (Text "Bug"))
                   start).2)
      as (_ & _ & [[_ Hown]|(cats & _ & Hlog & _)]).
    + reflexivity.
    + reflexivity.
    + exfalso.
      destruct Hown as [(n & _ & Hn)|[[_ Hn]|[_ Hn]]]; discriminate Hn.
    + by exists cats.
  - destruct (aggregate_aborts_only_before_the_chain
                (aggregate bug_feature "other" Null) start
                (NodeOperationError "Text to classify is not defined")
                (execute (aggregate bug_feature "other" Null) start).2)
      as (_ & _ & [[Hst _]|(cats & _ & _ & Hwhy)]).
    + reflexivity.
    + reflexivity.
    + exact Hst.
    + exfalso. destruct Hwhy as [Hwhy|[_ Hwhy]]; discriminate Hwhy.
Defined.


(** The run failing at item 1 has asked the model twice. *)
Lemma intolerant_run_stops_at_first_failure_witness :
  ∃ e st',
    execute
      (batch false bug_feature "other"
         [Text "Bug"; Text "outage"; Text "Feature"]) start
    = (Throw e, st')
    ∧ count_events is_model_call (log st') = 2.
Proof.
  destruct (intolerant_run_stops_at_first_failure
              (batch false bug_feature "other"
                 [Text "Bug"; Text "outage"; Text "Feature"]) start 1)
    as (e & st' & Hrun & Hlog).
  - reflexivity.
  - reflexivity.
  - done.
  - split; reflexivity.
  - done.
  - split; [by exists (Failed boom)|].
    intros m o' Hm Ho. destruct m as [|m]; [|lia]. by injection Ho as <-.
  - exists e, st'. split; [done|]. by rewrite Hlog.
Defined.


Lemma branches_keep_input_order_witness :
  ∃ rd st',
    execute mixed_batch start = (Ok rd, st')
    ∧ ∀ j branch,
        rd !! j = Some branch →
        ∃ origins,
          pairedItem <$> branch = Some <$> origins
          ∧ StronglySorted lt origins
          ∧ Forall (λ k, k < 4) origins.
Proof.
  exists (match (execute mixed_batch start).1 with
          | Ok rd => rd
          | Throw _ => []
          end), (execute mixed_batch start).2.
  split; [reflexivity|].
  apply (branches_keep_input_order mixed_batch start _
           (execute mixed_batch start).2).
  - reflexivity.
  - reflexivity.
Defined.

Lemma branch_entries_come_from_items_witness :
  ∃ rd st',
    execute mixed_batch start = (Ok rd, st')
    ∧ ∀ j branch x,
        rd !! j = Some branch →
        x ∈ branch →
        (∃ i item output,
           getInputData mixed_batch !! i = Some item
           ∧ run_outcomes mixed_batch 0 !! i = Some (Classified output)
           ∧ x = mkItem (json item) (Some i))
        ∨ (j = 0
           ∧ continueOnFail mixed_batch = true
           ∧ ∃ i o msg,
               run_outcomes mixed_batch 0 !! i = Some o
               ∧ failure_message o = Some msg
               ∧ x = mkItem [("error", JString msg)] (Some i)).
Proof.
  exists (match (execute mixed_batch start).1 with
          | Ok rd => rd
          | Throw _ => []
          end), (execute mixed_batch start).2.
  split; [reflexivity|].
  apply (branch_entries_come_from_items mixed_batch start _
           (execute mixed_batch start).2).
  - reflexivity.
  - reflexivity.
Defined.

(** A text that names no field, under the policy [other]: no branch grows. *)
Lemma unmatched_item_is_dropped_witness :
  ∃ st',
    process_item (batch false bug_feature "other" [Text "weather"])
      bug_feature "other"
      (parser_of (batch false bug_feature "other" [Text "weather"])
         bug_feature)
      (chain_of (batch false bug_feature "other" [Text "weather"])
         bug_feature)
      0 inbox_item three_branches = (Ok (), st')
    ∧ returnData st' = [[]; []; []].
Proof.
  pose (h := batch false bug_feature "other" [Text "weather"]).
  apply (unmatched_item_is_dropped h bug_feature "other"
           (parser_of h bug_feature) (chain_of h bug_feature) 0 inbox_item
           three_branches "weather"
           [("Bug", false); ("Feature", false); ("fallback", false)]
           (chain_invoke (chain_of h bug_feature)
              (chain_input bug_feature (parser_of h bug_feature) "weather")
              three_branches).2).
  - reflexivity.
  - done.
  - reflexivity.
  - reflexivity.
  - intros cat Hcat. apply list_elem_of_In in Hcat.
    destruct Hcat as [<-|[<-|[]]]; by left.
  - intros _ Htrue. discriminate Htrue.
Defined.

(** Two categories named [A]: the field describes the second. *)
Lemma last_description_wins_witness :
  describe
    <$> Js.get "A"
          (shape (build_schema [mkCategory "A" "first"; mkCategory "A" "second"]
                    "other"))
  = Some ("Should be true if the input has category " +:+ dq +:+ "A" +:+ dq
          +:+ " (description: second)").
Proof.
  assert (Hname : "other" = "other"
                  → category (mkCategory "A" "second") ≠ "fallback")
    by (intros _ Heq; simpl in Heq; discriminate Heq).
  exact (f_equal (fmap describe)
           (last_description_wins [mkCategory "A" "first"] []
              (mkCategory "A" "second") "other" (not_elem_of_nil _) Hname)).
Defined.

(** A run failing on its second item, and a failure-tolerant run whose
    template is rejected. *)
Lemma per_item_run_raises_for_three_reasons_witness :
  (continueOnFail failing_second = false
   ∧ ∃ n o,
       first_failure (run_outcomes failing_second 0) n
       ∧ run_outcomes failing_second 0 !! n = Some o
       ∧ abort_error n o = Some boom)
  ∧ log (execute (templated "Reply with }" true [Text "Bug"]) start).2
    = [EvSchemaBuilt (build_schema bug_feature "other")].
Proof.
  split.
  - destruct (per_item_run_raises_for_three_reasons failing_second start
                boom (execute failing_second start).2)
      as [(Hnil & _)|[(_ & _ & _ & _ & Hwhy)|(_ & _ & Hfail)]].
    + reflexivity.
    + reflexivity.
    + discriminate Hnil.
    + exfalso. destruct Hwhy as [Hwhy|[_ Hwhy]]; discriminate Hwhy.
    + exact Hfail.
  - destruct (per_item_run_raises_for_three_reasons
                (templated "Reply with }" true [Text "Bug"]) start
                (ExternalError "Single '}' in template.")
                (execute (templated "Reply with }" true [Text "Bug"])
                   start).2)
      as [(Hnil & _)|[(_ & _ & _ & Hlog & _)|(_ & _ & Htol & _)]].
    + reflexivity.
    + reflexivity.
    + discriminate Hnil.
    + exact Hlog.
    + discriminate Htol.
Defined.

Lemma returned_branches_match_declared_outputs_witness :
  length (configuredOutputs mixed_batch) = 3
  ∧ length (configuredOutputs (aggregate bug_feature "other" (Text "Bug")))
    = 1.
Proof.
  split.
  - symmetry.
    apply (returned_branches_match_declared_outputs mixed_batch start
             [[mkItem [("source", JString "inbox")] (Some 0);
               error_item "Text to classify is not defined" (Some 1);
               error_item "model unavailable" (Some 2);
               mkItem [("source", JString "inbox")] (Some 3)];
              [mkItem [("source", JString "inbox")] (Some 3)];
              []]
             (execute mixed_batch start).2).
    reflexivity.
  - symmetry.
    apply (returned_branches_match_declared_outputs
             (aggregate bug_feature "other" (Text "Bug")) start
             [[answer_item
                 [("Bug", true); ("Feature", false); ("fallback", false)]
                 "Bug"]]
             (execute (aggregate bug_feature "other" (Text "Bug")) start).2).
    reflexivity.
Defined.

Lemma continueOnFail_is_idle_without_failures_witness :
  (execute (with_continueOnFail true clean_batch) start).1
  = (execute clean_batch start).1
  ∧ ∃ rd, (execute clean_batch start).1 = Ok rd.
Proof.
  destruct (continueOnFail_is_idle_without_failures clean_batch start true)
    as [Hsame Hreturns].
  - reflexivity.
  - vm_compute. repeat constructor.
  - split; [exact Hsame|]. apply Hreturns; [done|split; reflexivity].
Defined.

(** Items 0 and 2 of a batch have no text; one list of input items stops
    being valid at item 1, another at item 0. *)
Lemma item_errors_name_one_item_witness :
  let h := batch false bug_feature "other" [Null; Text "Bug"; Undefined] in
  let valid :=
    mkItem [("category", JString "Bug"); ("description", JString "d")] None in
  let invalid :=
    mkItem [("category", JNumber 7); ("description", JString "d")] None in
  (process_item h bug_feature "other" (parser_of h bug_feature)
     (chain_of h bug_feature) 0 inbox_item three_branches).1
  ≠ (process_item h bug_feature "other" (parser_of h bug_feature)
       (chain_of h bug_feature) 2 inbox_item three_branches).1
  ∧ categories_from_items 0 [valid; invalid]
    ≠ categories_from_items 0 [invalid; valid].
Proof.
  intros h valid invalid.
  destruct (item_errors_name_one_item h bug_feature "other"
              (parser_of h bug_feature) (chain_of h bug_feature)
              inbox_item inbox_item three_branches three_branches 0 2
              [valid; invalid] [invalid; valid] 1 0)
    as (_ & Hitems & _ & Hinputs).
  - reflexivity.
  - by right.
  - by left.
  - split.
    + exists invalid. split; [reflexivity|]. intros [[c Hc] _]. discriminate Hc.
    + intros m item' Hm Hitem. destruct m as [|m]; [|lia].
      injection Hitem as <-. split; by eexists.
  - split.
    + exists invalid. split; [reflexivity|]. intros [[c Hc] _]. discriminate Hc.
    + intros m item' Hm. lia.
  - split; intros Heq; [apply Hitems in Heq|apply Hinputs in Heq];
      discriminate Heq.
Defined.

End more_examples.
